(** * aapt2 resource obfuscator (tools/aapt2/optimize/Obfuscator.cpp)

    A shallow embedding of the obfuscation pass of aapt2: the shortening of
    file-backed resource paths and the collapsing of resource names, followed
    by the properties of the pass.

    Conventions of the embedding:
    - [int] and [uint32_t] values are integers in [Z] and every narrowing
      conversion is written out ([to_int], [to_uint32]); the [size_t] hash is
      an [N] (it is only masked and shifted right);
    - [std::string] and [StringPiece] are [string];
    - a [FileReference*] is an address and the objects live in a store, so that
      the in-place rewriting of [file_ref->path] is a store update;
    - [std::map] and [std::unordered_map] are [gmap], the
      [std::unordered_set] of assigned paths is a [gset];
    - the [std::set] of file references is the red-black tree of the
      library, with its descent and its rebalancing, iterated in order;
    - the [while] loop that resolves collisions runs on fuel and the pass
      returns an [option]; that the fuel suffices is proved below.  Its
      counter is an [int] that stays below the number of assigned paths
      ([collision_count_bound]) and is kept in [Z]. *)

From Stdlib Require Import ZArith NArith Ascii String List Lia.
From stdpp Require Import base tactics option numbers strings pretty functions list gmap.

Local Open Scope Z_scope.

(** ** Machine integers *)

(** Conversion of an integer value to a 32-bit signed [int]. *)
Definition to_int (x : Z) : Z := (x + 2 ^ 31) mod 2 ^ 32 - 2 ^ 31.

(** Conversion of an integer value to [uint32_t]. *)
Definition to_uint32 (x : Z) : Z := x mod 2 ^ 32.

(** Contextual conversion of an [int] to [bool]. *)
Definition int_to_bool (x : Z) : bool := negb (x =? 0).

(** ** Strings *)

(** [s[i]] for a character array; the index is in range wherever it is used. *)
Definition char_at (s : string) (i : nat) : ascii :=
  default "000"%char (String.get i s).

(** [std::string::compare]: negative, zero or positive. *)
Definition compare (lhs rhs : string) : Z :=
  match String.compare lhs rhs with
  | Lt => -1
  | Eq => 0
  | Gt => 1
  end.

(** [std::to_string(int)]. *)
Definition to_string (n : Z) : string := pretty n.

(** Modelled from the spec: [util::StartsWith] is declared in util/Util.h,
    outside this unit; the pass uses it to recognise a path by its literal
    prefix. *)
Definition StartsWith (s prefix : string) : bool := String.prefix prefix s.

(** ** What the pass takes from its platform

    [std::hash<android::StringPiece>] is the hash functor of the C++ library
    and [util::ExtractResFilePathParts] lives in util/Util.cpp.  Neither is
    defined in this unit; the pass is parametric in both.  The splitter
    yields the values of its three out-parameters: the resource
    subdirectory, the file name and the extension. *)
Class Platform := {
  std_hash : string → N;
  ExtractResFilePathParts : string → string * string * string
}.

(** ** Path shortening: the helpers *)

Definition base64_chars : string :=
  "ABCDEFGHIJKLMNOPQRSTUVWXYZabcdefghijklmnopqrstuvwxyz0123456789-_".

(** The body of the [for] loop of [ShortenFileName], run [n] times. *)
Fixpoint ShortenFileName_loop (n : nat) (hash_num : N) (result : string) : string :=
  match n with
  | O => result
  | S n' =>
      let sextet := N.land hash_num 0x3f in
      let hash_num := N.shiftr hash_num 6 in
      ShortenFileName_loop n' hash_num
        (result +:+ String (char_at base64_chars (N.to_nat sextet)) "")
  end.

Definition ShortenFileName `{Platform} (file_path : string) (output_length : Z) : string :=
  let hash_num := std_hash file_path in
  ShortenFileName_loop (Z.to_nat output_length) hash_num "".

Definition OptimalShortenedLength (num_resources : Z) : Z :=
  if num_resources >? 4000 then 3 else 2.

Definition GetShortenedPath (shortened_filename extension : string)
    (collision_count : Z) : string :=
  let shortened_path := "res/" +:+ shortened_filename in
  let shortened_path :=
    if collision_count >? 0
    then shortened_path +:+ to_string collision_count
    else shortened_path in
  shortened_path +:+ extension.

(** ** The resource table

    The types of the table are declared in Resource.h, ResourceTable.h and
    ResourceValues.h, outside this unit.  They are given here as the pass uses
    them and as section 3 of the specification describes them, with the
    fields that the pass reads or writes.  The table is parametric in what a
    file-reference value holds: the address of the [FileReference] object in
    the program ([R := addr]), and the path itself when one speaks of the
    contents of a table ([R := string]). *)

(** Modelled from the spec: [ResourceNamedType] of Resource.h, a resource type
    by the name it is written with ([drawable], [^attr]). *)
Definition ResourceNamedType := string.

Module ResourceName.
(** Modelled from the spec: [ResourceName] of Resource.h, the triple of
    package, type and entry name. *)
Record t := mk {
  package : string;
  type : ResourceNamedType;
  entry : string
}.

#[global] Instance eq_dec : EqDecision t.
Proof. solve_decision. Defined.

#[global] Instance countable : Countable t.
Proof.
  apply (inj_countable' (λ n, (package n, type n, entry n))
           (λ p, mk p.1.1 p.1.2 p.2)).
  by intros [].
Defined.
End ResourceName.

Module ResourceId.
(** Modelled from the spec: [ResourceId] of Resource.h, the resolved 32-bit
    id of an entry; the field [id] is a [uint32_t]. *)
Record t := mk {
  id : Z;
  id_range : Is_true (bool_decide (0 ≤ id < 2 ^ 32))
}.

(** Modelled from the spec: [ResourceId::entry_id()] of Resource.h, the
    numeric id that the entry view holds, taken to be the low 16 bits of the
    resource id.  The pass never reads it. *)
Definition entry_id (r : t) : Z := Z.land (id r) 0xffff.
End ResourceId.

(** Modelled from the spec: the overlayable marker of an entry
    ([OverlayableItem] of ResourceTable.h); the pass only tests its
    presence. *)
Definition OverlayableItem := unit.

(** Modelled from the spec: a value of the table ([Value] of
    ResourceValues.h) is a file reference or something else. *)
Inductive Value (R : Type) :=
  | ValFileReference (file_ref : R)
  | ValOther.
Arguments ValFileReference {R} file_ref.
Arguments ValOther {R}.

(** [ValueCast<FileReference>(value)]: the reference, or null. *)
Definition ValueCast_FileReference {R} (v : Value R) : option R :=
  match v with
  | ValFileReference file_ref => Some file_ref
  | ValOther => None
  end.

Module ResourceConfigValue.
(** Modelled from the spec: a value of an entry for one configuration. *)
Record t (R : Type) := mk { value : Value R }.
Arguments mk {R} value.
Arguments value {R} _.
End ResourceConfigValue.

Module ResourceEntry.
(** Modelled from the spec: an entry of the table. *)
Record t (R : Type) := mk {
  name : string;
  id : option ResourceId.t;
  overlayable_item : option OverlayableItem;
  values : list (ResourceConfigValue.t R)
}.
Arguments mk {R} name id overlayable_item values.
Arguments name {R} _.
Arguments id {R} _.
Arguments overlayable_item {R} _.
Arguments values {R} _.
End ResourceEntry.

Module ResourceTableType.
(** Modelled from the spec: a type of a package, with its entries. *)
Record t (R : Type) := mk {
  named_type : ResourceNamedType;
  entries : list (ResourceEntry.t R)
}.
Arguments mk {R} named_type entries.
Arguments named_type {R} _.
Arguments entries {R} _.
End ResourceTableType.

Module ResourceTablePackage.
(** Modelled from the spec: a package of the table, with its types. *)
Record t (R : Type) := mk {
  name : string;
  types : list (ResourceTableType.t R)
}.
Arguments mk {R} name types.
Arguments name {R} _.
Arguments types {R} _.
End ResourceTablePackage.

Module ResourceTable.
(** Modelled from the spec: the table; its string pool is part of the store
    below. *)
Record t (R : Type) := mk { packages : list (ResourceTablePackage.t R) }.
Arguments mk {R} packages.
Arguments packages {R} _.
End ResourceTable.

Module ResourceTableEntryView.
(** Modelled from the spec: [ResourceTableEntryView] of ResourceTable.h, the
    projection of an entry that the classification receives. *)
Record t := mk {
  name : string;
  id : option Z;
  overlayable_item : option OverlayableItem
}.
End ResourceTableEntryView.

(** ** File references and the store *)

(** The address of a [FileReference] object. *)
Definition addr := positive.

(** Modelled from the spec: [FileReference] of ResourceValues.h.  Its path is
    a reference into the string pool; the pass reads the string and replaces
    the reference by one to a new string. *)
Record FileReference := { path : string }.

(** The [FileReference] objects of the table, by address. *)
Abbreviation store := (addr → FileReference).

(** ** [std::set] with a user comparator

    The set of the C++ library is a red-black tree, and the comparator is
    consulted only along the descent from the root: [__find_equal] of libc++,
    the library of the Android toolchain, goes left when the comparator puts
    the key before the node, right when it puts the node before the key, and
    otherwise reports the node as the equal one, so that nothing is inserted.
    A key that reaches a null child becomes a red node there, and
    [__tree_balance_after_insert] restores the colours on the way back to the
    root.  The set is iterated in the in-order of the tree, and its size is
    the number of nodes.

    For a strict weak ordering the descent finds an equivalent key whenever
    the set holds one.  [PathComparator] below is none: the descent then only
    ever goes left, and an equivalent key that is not on that way is not
    seen.  (The search of libstdc++, [_M_get_insert_unique_pos], goes down to
    a null child and then asks the comparator about the predecessor; for a
    strict weak ordering and for [PathComparator] it inserts in the same
    cases and at the same place.) *)
Inductive tree (A : Type) : Type :=
  | Leaf
  | Node (is_black : bool) (left : tree A) (value : A) (right : tree A).
Arguments Leaf {A}.
Arguments Node {A} is_black left value right.

Fixpoint elements {A} (t : tree A) : list A :=
  match t with
  | Leaf => []
  | Node _ l v r => elements l ++ v :: elements r
  end.

(** The nodes from the root down along the left children. *)
Fixpoint left_spine {A} (t : tree A) : list A :=
  match t with
  | Leaf => []
  | Node _ l v _ => v :: left_spine l
  end.

Fixpoint tree_map {A B} (f : A → B) (t : tree A) : tree B :=
  match t with
  | Leaf => Leaf
  | Node b l v r => Node b (tree_map f l) (f v) (tree_map f r)
  end.

Definition is_red {A} (t : tree A) : bool :=
  match t with
  | Node false _ _ _ => true
  | _ => false
  end.

Definition blacken {A} (t : tree A) : tree A :=
  match t with
  | Leaf => Leaf
  | Node _ l v r => Node true l v r
  end.

(** One round of the loop of [__tree_balance_after_insert], seen from the
    grandparent [v] of the red node [x] whose parent [l] is red too.  With a
    red uncle [r] the parent and the uncle become black and the grandparent
    red, and the loop goes on from the grandparent.  With a black uncle, [x]
    is first brought to the outer side by a rotation at the parent, then the
    parent becomes black, the grandparent red and is rotated to the right,
    and the loop ends. *)
Definition balance_left {A} (is_black : bool) (l : tree A) (v : A) (r : tree A)
    : tree A :=
  match l with
  | Node false ll lv lr =>
      if is_red ll || is_red lr then
        if is_red r then Node false (blacken l) v (blacken r)
        else if is_red ll then Node true ll lv (Node false lr v r)
        else
          match lr with
          | Node _ lrl lrv lrr =>
              Node true (Node false ll lv lrl) lrv (Node false lrr v r)
          | Leaf => Node is_black l v r
          end
      else Node is_black l v r
  | _ => Node is_black l v r
  end.

(** The mirror image, for a parent that is the right child. *)
Definition balance_right {A} (is_black : bool) (l : tree A) (v : A) (r : tree A)
    : tree A :=
  match r with
  | Node false rl rv rr =>
      if is_red rl || is_red rr then
        if is_red l then Node false (blacken l) v (blacken r)
        else if is_red rr then Node true (Node false l v rl) rv rr
        else
          match rl with
          | Node _ rll rlv rlr =>
              Node true (Node false l v rll) rlv (Node false rlr rv rr)
          | Leaf => Node is_black l v r
          end
      else Node is_black l v r
  | _ => Node is_black l v r
  end.

Section std_set.
Context {A : Type} (comp : A → A → bool).

(** [__find_equal], the new node, and the rebalancing of the subtree on the
    way back; [None] when the descent meets an equal key. *)
Fixpoint insert_node (k : A) (t : tree A) : option (tree A) :=
  match t with
  | Leaf => Some (Node false Leaf k Leaf)
  | Node b l v r =>
      if comp k v then l' ← insert_node k l; Some (balance_left b l' v r)
      else if comp v k then r' ← insert_node k r; Some (balance_right b l v r')
      else None
  end.

(** [std::set::insert]; the root is black in the end. *)
Definition set_insert (k : A) (t : tree A) : tree A :=
  match insert_node k t with
  | Some t' => blacken t'
  | None => t
  end.
End std_set.

(** [std::map::insert] and [std::unordered_map::insert]: an existing key keeps
    its value. *)
Definition map_insert `{Countable K} {V} (k : K) (v : V) (m : gmap K V) : gmap K V :=
  match m !! k with
  | Some _ => m
  | None => <[k:=v]> m
  end.

(** A range-[for] whose body may fail to return. *)
Fixpoint for_each {S A : Type} (body : S → A → option S) (l : list A) (st : S)
    : option S :=
  match l with
  | [] => Some st
  | x :: l' => st' ← body st x; for_each body l' st'
  end.

(** ** Path shortening *)

Definition PathComparator (σ : store) (lhs rhs : addr) : bool :=
  int_to_bool (compare (path (σ lhs)) (path (σ rhs))).

(** The first loop nest of [HandleShortenFilePaths]: the set [file_refs]. *)
Definition file_refs_set (σ : store) (table : ResourceTable.t addr) : tree addr :=
  foldl (λ file_refs package,
    foldl (λ file_refs type,
      foldl (λ file_refs entry,
        foldl (λ file_refs config_value,
          match ValueCast_FileReference (ResourceConfigValue.value config_value) with
          | Some file_ref => set_insert (PathComparator σ) file_ref file_refs
          | None => file_refs
          end)
        file_refs (ResourceEntry.values entry))
      file_refs (ResourceTableType.entries type))
    file_refs (ResourceTablePackage.types package))
  Leaf (ResourceTable.packages table).

(** The set [file_refs] in the order in which the second loop iterates over
    it; its length is [file_refs.size()]. *)
Definition collect_file_refs (σ : store) (table : ResourceTable.t addr) : list addr :=
  elements (file_refs_set σ table).

(** What the second loop of [HandleShortenFilePaths] carries along. *)
Record ShortenState := {
  shortened_paths : gset string;
  st_shortened_path_map : gmap string string;
  st_store : store
}.

(** The [while] loop that looks for a path not yet assigned. *)
Fixpoint collision_loop (fuel : nat) (shortened_paths : gset string)
    (shortened_filename extension : string) (collision_count : Z)
    (shortened_path : string) : option (Z * string) :=
  match fuel with
  | O => None
  | S fuel' =>
      if decide (shortened_path ∈ shortened_paths) then
        let collision_count := collision_count + 1 in
        collision_loop fuel' shortened_paths shortened_filename extension
          collision_count
          (GetShortenedPath shortened_filename extension collision_count)
      else Some (collision_count, shortened_path)
  end.

(** The body of the loop over [file_refs]. *)
Definition shorten_file_ref `{Platform} (num_chars : Z) (st : ShortenState)
    (file_ref : addr) : option ShortenState :=
  let file_path := path (st_store st file_ref) in
  let '(res_subdir, actual_filename, extension) := ExtractResFilePathParts file_path in
  if StartsWith res_subdir "res/color" then Some st
  else
    let shortened_filename := ShortenFileName file_path num_chars in
    let collision_count := 0 in
    let shortened_path := GetShortenedPath shortened_filename extension collision_count in
    '(collision_count, shortened_path) ←
      collision_loop (S (size (shortened_paths st))) (shortened_paths st)
        shortened_filename extension collision_count shortened_path;
    Some {| shortened_paths := {[shortened_path]} ∪ shortened_paths st;
            st_shortened_path_map :=
              map_insert file_path shortened_path (st_shortened_path_map st);
            st_store := <[file_ref := {| path := shortened_path |}]> (st_store st) |}.

(** [file_refs.size()] handed to the [int] parameter. *)
Definition num_chars_of (file_refs : list addr) : Z :=
  OptimalShortenedLength (to_int (Z.of_nat (length file_refs))).

Definition HandleShortenFilePaths `{Platform} (table : ResourceTable.t addr)
    (σ : store) (shortened_path_map : gmap string string)
    : option (bool * gmap string string * store) :=
  let file_refs := collect_file_refs σ table in
  let num_chars := num_chars_of file_refs in
  st ← for_each (shorten_file_ref num_chars) file_refs
         {| shortened_paths := ∅;
            st_shortened_path_map := shortened_path_map;
            st_store := σ |};
  Some (true, st_shortened_path_map st, st_store st).

(** ** Name collapsing *)

(** Modelled from the spec: [Obfuscator::Result] of optimize/Obfuscator.h. *)
Inductive Result := Obfuscated | Keep_ExemptionList | Keep_Overlayable.

#[global] Instance Result_eq_dec : EqDecision Result.
Proof. solve_decision. Defined.

(** The observer [onObfuscate] is a callback with side effects; here it
    transforms the state [S] that it closes over. *)
Definition ObfuscateResourceName {S : Type} (collapse_key_stringpool : bool)
    (name_collapse_exemptions : gset ResourceName.t)
    (type_name : ResourceNamedType) (entry : ResourceTableEntryView.t)
    (onObfuscate : Result → ResourceName.t → S → S) : S → S :=
  let resource_name :=
    ResourceName.mk "" type_name (ResourceTableEntryView.name entry) in
  if negb collapse_key_stringpool
     || bool_decide (resource_name ∈ name_collapse_exemptions)
  then onObfuscate Keep_ExemptionList resource_name
  else
    match ResourceTableEntryView.overlayable_item entry with
    | Some _ => onObfuscate Keep_Overlayable resource_name
    | None => onObfuscate Obfuscated resource_name
    end.

(** The lambda of [HandleCollapseKeyStringPool]; it captures [entryResId] and
    [id_resource_map] by reference.  The [int] is converted to the
    [uint32_t] key of the map. *)
Definition onObfuscate (obfuscatedResult : Result) (resource_name : ResourceName.t)
    (captured : Z * gmap Z string) : Z * gmap Z string :=
  let '(entryResId, id_resource_map) := captured in
  if decide (obfuscatedResult = Obfuscated)
  then (entryResId,
        map_insert (to_uint32 entryResId) (ResourceName.entry resource_name)
          id_resource_map)
  else (entryResId, id_resource_map).

(** The body of the innermost loop of [HandleCollapseKeyStringPool]. *)
Definition collapse_entry {R} (collapse_key_string_pool : bool)
    (name_collapse_exemptions : gset ResourceName.t)
    (type : ResourceTableType.t R) (captured : Z * gmap Z string)
    (entry : ResourceEntry.t R) : Z * gmap Z string :=
  match ResourceEntry.id entry with
  | None => captured
  | Some id =>
      if decide (ResourceEntry.name entry = "") then captured
      else
        let captured := (to_int (ResourceId.id id), captured.2) in
        let entry_view :=
          ResourceTableEntryView.mk (ResourceEntry.name entry)
            (Some (ResourceId.entry_id id))
            (ResourceEntry.overlayable_item entry) in
        ObfuscateResourceName collapse_key_string_pool name_collapse_exemptions
          (ResourceTableType.named_type type) entry_view onObfuscate captured
  end.

Definition HandleCollapseKeyStringPool {R} (table : ResourceTable.t R)
    (collapse_key_string_pool : bool)
    (name_collapse_exemptions : gset ResourceName.t)
    (id_resource_map : gmap Z string) : bool * gmap Z string :=
  if negb collapse_key_string_pool then (true, id_resource_map)
  else
    let entryResId := 0 in
    let captured :=
      foldl (λ captured package,
        foldl (λ captured type,
          foldl (collapse_entry collapse_key_string_pool name_collapse_exemptions type)
            captured (ResourceTableType.entries type))
        captured (ResourceTablePackage.types package))
      (entryResId, id_resource_map) (ResourceTable.packages table) in
    (true, captured.2).

(** ** The pass *)

(** Modelled from the spec: the options of section 6 that the pass reads and
    the two maps that it fills. *)
Record TableFlattenerOptions := {
  collapse_key_stringpool : bool;
  name_collapse_exemptions : gset ResourceName.t;
  id_resource_map : gmap Z string;
  shortened_path_map : gmap string string
}.

(** Modelled from the spec: the options that the constructor receives. *)
Record OptimizeOptions := {
  table_flattener_options : TableFlattenerOptions;
  shorten_resource_paths : bool
}.

(** Modelled from the spec: the members of [Obfuscator]
    (optimize/Obfuscator.h) that the constructor initialises; [options_]
    refers to the options of the caller. *)
Record Obfuscator := {
  options_ : TableFlattenerOptions;
  shorten_resource_paths_ : bool;
  collapse_key_stringpool_ : bool
}.

Definition Obfuscator_new (optimizeOptions : OptimizeOptions) : Obfuscator :=
  {| options_ := table_flattener_options optimizeOptions;
     shorten_resource_paths_ := shorten_resource_paths optimizeOptions;
     collapse_key_stringpool_ :=
       collapse_key_stringpool (table_flattener_options optimizeOptions) |}.

Definition set_id_resource_map (m : gmap Z string) (o : TableFlattenerOptions)
    : TableFlattenerOptions :=
  {| collapse_key_stringpool := collapse_key_stringpool o;
     name_collapse_exemptions := name_collapse_exemptions o;
     id_resource_map := m;
     shortened_path_map := shortened_path_map o |}.

Definition set_shortened_path_map (m : gmap string string)
    (o : TableFlattenerOptions) : TableFlattenerOptions :=
  {| collapse_key_stringpool := collapse_key_stringpool o;
     name_collapse_exemptions := name_collapse_exemptions o;
     id_resource_map := id_resource_map o;
     shortened_path_map := m |}.

(** [Consume] returns its result together with the options and the store as
    it leaves them. *)
Definition Consume `{Platform} (self : Obfuscator) (table : ResourceTable.t addr)
    (σ : store) : option (bool * TableFlattenerOptions * store) :=
  let '(_, id_map) :=
    HandleCollapseKeyStringPool table (collapse_key_stringpool (options_ self))
      (name_collapse_exemptions (options_ self))
      (id_resource_map (options_ self)) in
  let options := set_id_resource_map id_map (options_ self) in
  if shorten_resource_paths_ self then
    '(result, path_map, σ') ←
      HandleShortenFilePaths table σ (shortened_path_map options);
    Some (result, set_shortened_path_map path_map options, σ')
  else Some (true, options, σ).

Definition IsEnabled (self : Obfuscator) : bool :=
  shorten_resource_paths_ self || collapse_key_stringpool_ self.

(** ** Views of a table used in the statements *)

Definition Value_map {A B} (f : A → B) (v : Value A) : Value B :=
  match v with
  | ValFileReference file_ref => ValFileReference (f file_ref)
  | ValOther => ValOther
  end.

Definition config_value_map {A B} (f : A → B) (c : ResourceConfigValue.t A)
    : ResourceConfigValue.t B :=
  ResourceConfigValue.mk (Value_map f (ResourceConfigValue.value c)).

Definition entry_map {A B} (f : A → B) (e : ResourceEntry.t A) : ResourceEntry.t B :=
  ResourceEntry.mk (ResourceEntry.name e) (ResourceEntry.id e)
    (ResourceEntry.overlayable_item e)
    (config_value_map f <$> ResourceEntry.values e).

Definition type_map {A B} (f : A → B) (t : ResourceTableType.t A)
    : ResourceTableType.t B :=
  ResourceTableType.mk (ResourceTableType.named_type t)
    (entry_map f <$> ResourceTableType.entries t).

Definition package_map {A B} (f : A → B) (p : ResourceTablePackage.t A)
    : ResourceTablePackage.t B :=
  ResourceTablePackage.mk (ResourceTablePackage.name p)
    (type_map f <$> ResourceTablePackage.types p).

(** The table with [f] applied to every file reference. *)
Definition table_map {A B} (f : A → B) (table : ResourceTable.t A) : ResourceTable.t B :=
  ResourceTable.mk (package_map f <$> ResourceTable.packages table).

(** The contents of a table: every file reference replaced by its path. *)
Definition table_contents (σ : store) (table : ResourceTable.t addr)
    : ResourceTable.t string :=
  table_map (λ file_ref, path (σ file_ref)) table.

Definition config_value_refs {R} (c : ResourceConfigValue.t R) : list R :=
  option_list (ValueCast_FileReference (ResourceConfigValue.value c)).

Definition entry_refs {R} (e : ResourceEntry.t R) : list R :=
  ResourceEntry.values e ≫= config_value_refs.

Definition type_refs {R} (t : ResourceTableType.t R) : list R :=
  ResourceTableType.entries t ≫= entry_refs.

Definition package_refs {R} (p : ResourceTablePackage.t R) : list R :=
  ResourceTablePackage.types p ≫= type_refs.

(** The file references of a table in the order the loops meet them. *)
Definition table_file_refs {R} (table : ResourceTable.t R) : list R :=
  ResourceTable.packages table ≫= package_refs.

(** Every [FileReference] object belongs to one value of the table. *)
Definition table_wf (table : ResourceTable.t addr) : Prop :=
  NoDup (table_file_refs table).

(** The entries of a table, each with its type, in the order of the loops. *)
Definition table_entries {R} (table : ResourceTable.t R)
    : list (ResourceTableType.t R * ResourceEntry.t R) :=
  package ← ResourceTable.packages table;
  type ← ResourceTablePackage.types package;
  entry ← ResourceTableType.entries type;
  [(type, entry)].

Definition entry_view {R} (entry : ResourceEntry.t R) : ResourceTableEntryView.t :=
  ResourceTableEntryView.mk (ResourceEntry.name entry)
    (ResourceId.entry_id <$> ResourceEntry.id entry)
    (ResourceEntry.overlayable_item entry).

(** The outcome that [ObfuscateResourceName] hands to its observer. *)
Definition classification (collapse_key_stringpool : bool)
    (name_collapse_exemptions : gset ResourceName.t)
    (type_name : ResourceNamedType) (entry : ResourceTableEntryView.t) : Result :=
  ObfuscateResourceName collapse_key_stringpool name_collapse_exemptions
    type_name entry (λ result _ _, result) Keep_ExemptionList.

(** What an entry adds to the id-to-name map: the pair of its resolved id and
    its name when it has an id and a name and is classified [Obfuscated]. *)
Definition entry_records {R} (collapse_key_stringpool : bool)
    (name_collapse_exemptions : gset ResourceName.t)
    (type : ResourceTableType.t R) (entry : ResourceEntry.t R) : list (Z * string) :=
  match ResourceEntry.id entry with
  | None => []
  | Some id =>
      if decide (ResourceEntry.name entry = "") then []
      else if decide (classification collapse_key_stringpool name_collapse_exemptions
                        (ResourceTableType.named_type type) (entry_view entry)
                      = Obfuscated)
      then [(ResourceId.id id, ResourceEntry.name entry)]
      else []
  end.

(** These pairs for the whole table, in the order of the loops. *)
Definition obfuscated_records {R} (collapse_key_stringpool : bool)
    (name_collapse_exemptions : gset ResourceName.t) (table : ResourceTable.t R)
    : list (Z * string) :=
  table_entries table ≫=
    (λ te, entry_records collapse_key_stringpool name_collapse_exemptions te.1 te.2).

(** Inserting a list of pairs into a map, one after the other. *)
Definition record_all (m : gmap Z string) (records : list (Z * string)) : gmap Z string :=
  foldl (λ m r, map_insert r.1 r.2 m) m records.

(** The alphabet as the specification lists it: [A-Z], [a-z], [0-9], [-], [_]. *)
Definition alphabet_symbol (v : N) : ascii :=
  if (v <? 26)%N then ascii_of_N (N_of_ascii "A" + v)
  else if (v <? 52)%N then ascii_of_N (N_of_ascii "a" + (v - 26))
  else if (v <? 62)%N then ascii_of_N (N_of_ascii "0" + (v - 52))
  else if (v =? 62)%N then "-"%char
  else "_"%char.

(** The [i]-th group of six bits of a hash, counted from the low end. *)
Definition sextet_group (hash_num : N) (i : nat) : N :=
  ((hash_num / 2 ^ (6 * N.of_nat i)) mod 2 ^ 6)%N.

(** The decimal suffix of a shortened path: none for zero. *)
Definition collision_suffix (k : nat) : string :=
  match k with
  | O => ""
  | S _ => pretty k
  end.

(** An extension that can follow a collision suffix without ambiguity: it
    does not begin with a decimal digit. *)
Definition no_leading_digit (extension : string) : bool :=
  match extension with
  | "" => true
  | String c _ => bool_decide (Ascii.is_nat c = None)
  end.

(** The suffix that [GetShortenedPath] writes for a collision count. *)
Definition count_suffix (collision_count : Z) : string :=
  if collision_count >? 0 then to_string collision_count else "".

Fixpoint all_digits (s : string) : bool :=
  match s with
  | "" => true
  | String c s' => bool_decide (Ascii.is_nat c ≠ None) && all_digits s'
  end.

(** The parts of a path as the platform splits it. *)
Definition res_subdir_of `{Platform} (file_path : string) : string :=
  (ExtractResFilePathParts file_path).1.1.

Definition extension_of `{Platform} (file_path : string) : string :=
  (ExtractResFilePathParts file_path).2.

(** The test that makes the loop pass over a reference. *)
Definition is_color_path `{Platform} (file_path : string) : bool :=
  StartsWith (res_subdir_of file_path) "res/color".

(** The alias and the extension of a path that the loop shortens. *)
Definition file_key `{Platform} (num_chars : Z) (file_path : string)
    : option (string * string) :=
  if is_color_path file_path then None
  else Some (ShortenFileName file_path num_chars, extension_of file_path).

(** How many of the references [l] are shortened with the given alias and
    extension. *)
Definition key_count `{Platform} (num_chars : Z) (σ : store)
    (key : string * string) (l : list addr) : nat :=
  length (filter (λ r, file_key num_chars (path (σ r)) = Some key) l).

(** ** Example platforms and tables *)

(** The part of [s] up to and including its last slash, and the rest. *)
Fixpoint split_last_slash (s : string) : option (string * string) :=
  match s with
  | "" => None
  | String c s' =>
      match split_last_slash s' with
      | Some (dir, file) => Some (String c dir, file)
      | None => if decide (c = "/"%char) then Some (String c "", s') else None
      end
  end.

(** The part of [s] before its first dot, and the rest from the dot on. *)
Fixpoint split_first_dot (s : string) : string * string :=
  match s with
  | "" => ("", "")
  | String c s' =>
      if decide (c = "."%char) then ("", s)
      else let '(stem, extension) := split_first_dot s' in (String c stem, extension)
  end.

(** Modelled from the spec: [util::ExtractResFilePathParts] of util/Util.cpp
    is missing; the specification has it split the path into subdirectory,
    base filename and extension.  A path without a subdirectory leaves the
    three parts empty. *)
Definition split_res_path (file_path : string) : string * string * string :=
  match split_last_slash file_path with
  | Some (res_subdir, file) =>
      let '(actual_filename, extension) := split_first_dot file in
      (res_subdir, actual_filename, extension)
  | None => ("", "", "")
  end.

(** A hash that adds up the bytes of the string. *)
Fixpoint byte_sum (s : string) : N :=
  match s with
  | "" => 0%N
  | String c s' => (N_of_ascii c + byte_sum s')%N
  end.

Definition byte_sum_platform : Platform :=
  {| std_hash := byte_sum; ExtractResFilePathParts := split_res_path |}.

(** A hash that sends every string to the sextets 0 and 27, the alias [Ab]. *)
Definition Ab_platform : Platform :=
  {| std_hash := λ _, 1728%N; ExtractResFilePathParts := split_res_path |}.

Definition zero_platform : Platform :=
  {| std_hash := λ _, 0%N; ExtractResFilePathParts := split_res_path |}.

(** A table of one package and one type whose entries each hold the given
    values. *)
Definition table_of {R} (type_name : ResourceNamedType)
    (entries : list (ResourceEntry.t R)) : ResourceTable.t R :=
  ResourceTable.mk
    [ResourceTablePackage.mk "app" [ResourceTableType.mk type_name entries]].

Definition file_entry {R} (name : string) (id : Z)
    (range : Is_true (bool_decide (0 ≤ id < 2 ^ 32))) (refs : list R)
    : ResourceEntry.t R :=
  ResourceEntry.mk name (Some (ResourceId.mk id range)) None
    ((λ r, ResourceConfigValue.mk (ValFileReference r)) <$> refs).

(** Two drawables and a colour state list; the objects sit at addresses 1,
    2 and 3. *)
Definition example_table : ResourceTable.t addr :=
  table_of "drawable"
    [file_entry "bar" 0x7f010000 I [1%positive];
     file_entry "foo" 0x7f010001 I [2%positive];
     file_entry "tint" 0x7f010002 I [3%positive]].

Definition example_store : store := λ a,
  match a with
  | 1%positive => {| path := "res/drawable/bar.png" |}
  | 2%positive => {| path := "res/drawable/foo.png" |}
  | 3%positive => {| path := "res/color/tint.xml" |}
  | _ => {| path := "" |}
  end.

(** The same contents with the objects at other addresses. *)
Definition example_table' : ResourceTable.t addr :=
  table_of "drawable"
    [file_entry "bar" 0x7f010000 I [70%positive];
     file_entry "foo" 0x7f010001 I [50%positive];
     file_entry "tint" 0x7f010002 I [60%positive]].

Definition example_store' : store := λ a,
  match a with
  | 70%positive => {| path := "res/drawable/bar.png" |}
  | 50%positive => {| path := "res/drawable/foo.png" |}
  | 60%positive => {| path := "res/color/tint.xml" |}
  | _ => {| path := "" |}
  end.

(** An entry with an overlayable marker, one without, one without an id, one
    without a name and one with an id beyond [INT_MAX]. *)
Definition app_name_entry : ResourceEntry.t addr :=
  ResourceEntry.mk "app_name" (Some (ResourceId.mk 0x7f020000 I)) (Some ()) [].

Definition greeting_entry : ResourceEntry.t addr :=
  ResourceEntry.mk "greeting" (Some (ResourceId.mk 0x7f020001 I)) None [].

Definition names_entries : list (ResourceEntry.t addr) :=
  [app_name_entry;
   greeting_entry;
   ResourceEntry.mk "pending" None None [];
   ResourceEntry.mk "" (Some (ResourceId.mk 0x7f020003 I)) None [];
   ResourceEntry.mk "legal" (Some (ResourceId.mk 0xff020004 I)) None []].

Definition string_type : ResourceTableType.t addr :=
  ResourceTableType.mk "string" names_entries.

Definition names_table : ResourceTable.t addr := table_of "string" names_entries.

(** An obfuscator with both passes enabled and nothing recorded yet. *)
Definition example_obfuscator : Obfuscator :=
  Obfuscator_new
    {| table_flattener_options :=
         {| collapse_key_stringpool := true;
            name_collapse_exemptions := ∅;
            id_resource_map := ∅;
            shortened_path_map := ∅ |};
       shorten_resource_paths := true |}.

Definition exempt_app_name : gset ResourceName.t :=
  {[ ResourceName.mk "" "string" "app_name" ]}.




(** ** Further views and examples *)

(** The symbols that may stand in an alias: letters, digits, dash and
    underscore. *)
Definition is_alias_symbol (c : ascii) : bool :=
  let n := N_of_ascii c in
  ((65 <=? n) && (n <=? 90) || (97 <=? n) && (n <=? 122)
   || (48 <=? n) && (n <=? 57) || (n =? 45) || (n =? 95))%N.

(** A table whose only file reference is a colour state list. *)
Definition color_only_table : ResourceTable.t addr :=
  table_of "color" [file_entry "tint" 0x7f040000 I [3%positive]].

(** Two objects with one and the same path, and a third with its own. *)
Definition twin_table : ResourceTable.t addr :=
  table_of "drawable"
    [file_entry "icon" 0x7f010000 I [1%positive; 2%positive];
     file_entry "logo" 0x7f010001 I [3%positive]].

Definition twin_store : store := λ a,
  match a with
  | 3%positive => {| path := "res/drawable/logo.png" |}
  | _ => {| path := "res/drawable/icon.png" |}
  end.

(** Two objects with one and the same path that the traversal meets with two
    others in between. *)
Definition apart_table : ResourceTable.t addr :=
  table_of "drawable"
    [file_entry "icons" 0x7f010000 I [1%positive; 2%positive; 3%positive; 4%positive]].

Definition apart_store : store := λ a,
  match a with
  | 2%positive => {| path := "res/drawable/logo.png" |}
  | 3%positive => {| path := "res/drawable/bar.png" |}
  | _ => {| path := "res/drawable/icon.png" |}
  end.

(** Two entries with one resolved id. *)
Definition clash_table : ResourceTable.t addr :=
  table_of "string"
    [ResourceEntry.mk "first" (Some (ResourceId.mk 0x7f020000 I)) None [];
     ResourceEntry.mk "second" (Some (ResourceId.mk 0x7f020000 I)) None []].

(** An obfuscator with both passes disabled. *)
Definition disabled_options : OptimizeOptions :=
  {| table_flattener_options :=
       {| collapse_key_stringpool := false;
          name_collapse_exemptions := ∅;
          id_resource_map := {[ 7 := "kept" ]};
          shortened_path_map := {[ "res/a.png" := "res/x.png" ]} |};
     shorten_resource_paths := false |}.

(** * Properties *)

(** ** Strings *)

Lemma string_app_cons (c : ascii) (s t : string) :
  String c s +:+ t = String c (s +:+ t).
Proof. reflexivity. Qed.

Lemma string_app_length (s t : string) :
  String.length (s +:+ t) = (String.length s + String.length t)%nat.
Proof.
  induction s as [|c s IH]; [done|].
  rewrite string_app_cons. cbn. by rewrite IH.
Qed.

Lemma string_app_nil_r (s : string) : s +:+ "" = s.
Proof.
  induction s as [|c s IH]; [done|]. by rewrite string_app_cons, IH.
Qed.

Lemma string_app_assoc (s t u : string) : (s +:+ t) +:+ u = s +:+ t +:+ u.
Proof.
  induction s as [|c s IH]; [done|]. by rewrite !string_app_cons, IH.
Qed.

Lemma string_app_inv (s1 s2 t1 t2 : string) :
  String.length s1 = String.length s2 →
  s1 +:+ t1 = s2 +:+ t2 → s1 = s2 ∧ t1 = t2.
Proof.
  revert s2. induction s1 as [|c s1 IH]; intros [|d s2] Hlen Heq;
    try discriminate; [done|].
  rewrite !string_app_cons in Heq. injection Heq as -> Heq.
  destruct (IH s2) as [-> ->]; [by injection Hlen|done|done].
Qed.

Lemma string_app_inj_r (s1 s2 t : string) : s1 +:+ t = s2 +:+ t → s1 = s2.
Proof.
  intros Heq. apply (string_app_inv s1 s2 t t); [|done].
  apply (f_equal String.length) in Heq. rewrite !string_app_length in Heq. lia.
Qed.

Lemma string_get_app_l (s t : string) (i : nat) :
  (i < String.length s)%nat → String.get i (s +:+ t) = String.get i s.
Proof.
  revert i. induction s as [|c s IH]; intros i Hi; cbn in Hi; [lia|].
  rewrite string_app_cons. destruct i as [|i]; [done|]. cbn. apply IH. lia.
Qed.

Lemma string_get_app_r (s t : string) (i : nat) :
  String.get (String.length s + i) (s +:+ t) = String.get i t.
Proof.
  induction s as [|c s IH]; [done|]. rewrite string_app_cons. cbn. apply IH.
Qed.

(** ** The alias of a path *)

Lemma base64_chars_alphabet (v : N) :
  (v < 64)%N → char_at base64_chars (N.to_nat v) = alphabet_symbol v.
Proof.
  intros Hv.
  assert (Hall : forallb (λ n, bool_decide
            (char_at base64_chars n = alphabet_symbol (N.of_nat n))) (seq 0 64) = true)
    by (vm_compute; reflexivity).
  rewrite forallb_forall in Hall.
  specialize (Hall (N.to_nat v)). rewrite N2Nat.id in Hall.
  eapply bool_decide_eq_true, Hall, in_seq. lia.
Qed.

Lemma sextet_group_bits (hash_num : N) (i : nat) :
  N.land (N.shiftr hash_num (6 * N.of_nat i)) 0x3f = sextet_group hash_num i.
Proof.
  unfold sextet_group. rewrite N.shiftr_div_pow2.
  change 0x3f%N with (N.ones 6). by rewrite N.land_ones.
Qed.

Lemma sextet_group_lt (hash_num : N) (i : nat) : (sextet_group hash_num i < 64)%N.
Proof. unfold sextet_group. apply N.mod_lt. done. Qed.

Lemma ShortenFileName_loop_S (n : nat) (hash_num : N) (result : string) :
  ShortenFileName_loop (S n) hash_num result
  = ShortenFileName_loop n (N.shiftr hash_num 6)
      (result +:+ String (char_at base64_chars (N.to_nat (N.land hash_num 0x3f))) "").
Proof. reflexivity. Qed.

Lemma ShortenFileName_loop_length (n : nat) (hash_num : N) (result : string) :
  String.length (ShortenFileName_loop n hash_num result)
  = (String.length result + n)%nat.
Proof.
  revert hash_num result. induction n as [|n IH]; intros hash_num result.
  - cbn. lia.
  - rewrite ShortenFileName_loop_S, IH, string_app_length.
    change (String.length (String _ "")) with 1%nat. lia.
Qed.

Lemma ShortenFileName_loop_prefix (n : nat) (hash_num : N) (result : string) (i : nat) :
  (i < String.length result)%nat →
  String.get i (ShortenFileName_loop n hash_num result) = String.get i result.
Proof.
  revert hash_num result. induction n as [|n IH]; intros hash_num result Hi.
  - done.
  - rewrite ShortenFileName_loop_S, IH by (rewrite string_app_length; lia).
    by apply string_get_app_l.
Qed.

Lemma ShortenFileName_loop_get (n : nat) (hash_num : N) (result : string) (i : nat) :
  (i < n)%nat →
  String.get (String.length result + i) (ShortenFileName_loop n hash_num result)
  = Some (alphabet_symbol (sextet_group hash_num i)).
Proof.
  revert hash_num result i.
  induction n as [|n IH]; intros hash_num result i Hi; [lia|].
  rewrite ShortenFileName_loop_S.
  destruct i as [|i].
  - rewrite ShortenFileName_loop_prefix
      by (rewrite string_app_length; change (String.length (String _ "")) with 1%nat; lia).
    rewrite string_get_app_r.
    change (get 0 (String ?c _)) with (Some c). f_equal.
    pose proof (sextet_group_bits hash_num 0) as Hbits.
    change (6 * N.of_nat 0)%N with 0%N in Hbits. rewrite N.shiftr_0_r in Hbits.
    rewrite Hbits. apply base64_chars_alphabet, sextet_group_lt.
  - specialize (IH (N.shiftr hash_num 6)
      (result +:+ String (char_at base64_chars (N.to_nat (N.land hash_num 0x3f))) "")
      i ltac:(lia)).
    rewrite string_app_length in IH.
    change (String.length (String _ "")) with 1%nat in IH.
    replace (String.length result + S i)%nat with (String.length result + 1 + i)%nat by lia.
    rewrite IH. do 2 f_equal.
    rewrite <- !sextet_group_bits, N.shiftr_shiftr. do 2 f_equal. lia.
Qed.

Section alias.
Context `{Platform}.

(** C3: for a path and a requested length, the alias has exactly [length]
    symbols (none when the length is not positive), and its [i]-th symbol
    is the alphabet symbol ([A-Z], [a-z], [0-9], [-], [_]) of the [i]-th
    six-bit group, counted from the low end, of the hash that the
    platform's [std::hash] gives for the full path. *)
Theorem ShortenFileName_sextets (file_path : string) (output_length : Z) :
  String.length (ShortenFileName file_path output_length) = Z.to_nat output_length
  ∧ ∀ i : nat, (i < Z.to_nat output_length)%nat →
      String.get i (ShortenFileName file_path output_length)
      = Some (alphabet_symbol (sextet_group (std_hash file_path) i)).
Proof.
  unfold ShortenFileName. split.
  - by rewrite ShortenFileName_loop_length.
  - intros i Hi.
    by apply (ShortenFileName_loop_get (Z.to_nat output_length) (std_hash file_path) "" i).
Qed.
End alias.

(** ** The set of file references *)

Lemma string_compare_refl (s : string) : String.compare s s = Eq.
Proof.
  pose proof (String.compare_antisym s s) as Hanti.
  destruct (String.compare s s); done.
Qed.

Lemma compare_zero (lhs rhs : string) : compare lhs rhs = 0 ↔ lhs = rhs.
Proof.
  unfold compare. split.
  - intros Hc. apply String.compare_eq_iff.
    by destruct (String.compare lhs rhs).
  - intros ->. by rewrite string_compare_refl.
Qed.

Lemma PathComparator_true (σ : store) (lhs rhs : addr) :
  PathComparator σ lhs rhs = true ↔ path (σ lhs) ≠ path (σ rhs).
Proof.
  unfold PathComparator, int_to_bool. rewrite <- compare_zero.
  rewrite negb_true_iff, Z.eqb_neq. done.
Qed.

Lemma PathComparator_false (σ : store) (lhs rhs : addr) :
  PathComparator σ lhs rhs = false ↔ path (σ lhs) = path (σ rhs).
Proof.
  unfold PathComparator, int_to_bool. rewrite <- compare_zero.
  rewrite negb_false_iff, Z.eqb_eq. done.
Qed.

(** *** The tree of the set *)

Lemma elements_blacken {A} (t : tree A) : elements (blacken t) = elements t.
Proof. by destruct t. Qed.

Lemma elements_tree_map {A B} (f : A → B) (t : tree A) :
  elements (tree_map f t) = f <$> elements t.
Proof.
  induction t as [|b l IHl v r IHr]; [done|].
  cbn [tree_map elements]. by rewrite fmap_app, fmap_cons, IHl, IHr.
Qed.

(** Recolouring and rotating keep the in-order of the tree. *)
Lemma elements_balance_left {A} (b : bool) (l : tree A) (v : A) (r : tree A) :
  elements (balance_left b l v r) = elements l ++ v :: elements r.
Proof.
  destruct l as [|[] ll lv lr]; [done..|]. unfold balance_left.
  destruct (is_red ll || is_red lr); [|done].
  destruct (is_red r).
  { cbn. by rewrite ?elements_blacken. }
  destruct (is_red ll).
  { cbn [elements]. by list_simplifier. }
  destruct lr as [|c lrl lrv lrr]; [done|].
  cbn [elements]. by list_simplifier.
Qed.

Lemma elements_balance_right {A} (b : bool) (l : tree A) (v : A) (r : tree A) :
  elements (balance_right b l v r) = elements l ++ v :: elements r.
Proof.
  destruct r as [|[] rl rv rr]; [done..|]. unfold balance_right.
  destruct (is_red rl || is_red rr); [|done].
  destruct (is_red l).
  { cbn. by rewrite ?elements_blacken. }
  destruct (is_red rr).
  { cbn [elements]. by list_simplifier. }
  destruct rl as [|c rll rlv rlr]; [done|].
  cbn [elements]. by list_simplifier.
Qed.

(** An inserted key takes one place in the in-order; the other elements keep
    theirs. *)
Lemma insert_node_elements {A} (comp : A → A → bool) (k : A) (t t' : tree A) :
  insert_node comp k t = Some t' →
  ∃ l1 l2, elements t = l1 ++ l2 ∧ elements t' = l1 ++ k :: l2.
Proof.
  revert t'. induction t as [|b l IHl v r IHr]; intros t' Hins; cbn in Hins.
  { injection Hins as <-. by exists [], []. }
  destruct (comp k v).
  - destruct (insert_node comp k l) as [l'|]; [|done].
    injection Hins as <-. destruct (IHl l' eq_refl) as (l1 & l2 & Hl & Hl').
    exists l1, (l2 ++ v :: elements r).
    rewrite elements_balance_left. cbn [elements]. rewrite Hl, Hl'.
    by list_simplifier.
  - destruct (comp v k); [|done].
    destruct (insert_node comp k r) as [r'|]; [|done].
    injection Hins as <-. destruct (IHr r' eq_refl) as (l1 & l2 & Hr & Hr').
    exists (elements l ++ v :: l1), l2.
    rewrite elements_balance_right. cbn [elements]. rewrite Hr, Hr'.
    by list_simplifier.
Qed.

Lemma set_insert_elements {A} (comp : A → A → bool) (k : A) (t : tree A) :
  elements (set_insert comp k t) = elements t
  ∨ ∃ l1 l2, elements t = l1 ++ l2 ∧ elements (set_insert comp k t) = l1 ++ k :: l2.
Proof.
  unfold set_insert. destruct (insert_node comp k t) as [t'|] eqn:Hins; [|by left].
  right. rewrite elements_blacken. by eapply insert_node_elements.
Qed.

Lemma elem_of_set_insert {A} (comp : A → A → bool) (k a : A) (t : tree A) :
  a ∈ elements (set_insert comp k t) → a = k ∨ a ∈ elements t.
Proof.
  destruct (set_insert_elements comp k t) as [->|(l1 & l2 & -> & ->)]; [by right|].
  rewrite !elem_of_app, elem_of_cons. tauto.
Qed.

Lemma left_spine_elements {A} (t : tree A) (a : A) :
  a ∈ left_spine t → a ∈ elements t.
Proof.
  induction t as [|b l IHl v r _]; [done|]. cbn.
  rewrite elem_of_cons, elem_of_app, elem_of_cons. intros [->|Hin]; [tauto|].
  left. by apply IHl.
Qed.

(** The first element of the iteration is the end of the left spine. *)
Lemma elements_head_left_spine {A} (t : tree A) (a : A) (l : list A) :
  elements t = a :: l → a ∈ left_spine t.
Proof.
  revert l. induction t as [|b tl IHl v r _]; intros l Ht; [done|].
  cbn in *. destruct (elements tl) as [|a' l'] eqn:Hl.
  - injection Ht as -> _. by left.
  - injection Ht as -> _. right. by eapply IHl.
Qed.

(** *** Insertion under [PathComparator] *)

(** The descent goes left at every node with another path and stops at the
    first node with the path of the key: the key is compared with the left
    spine only, and when no node there has its path it becomes the first
    element. *)
Lemma insert_node_PathComparator (σ : store) (k : addr) (t : tree addr) :
  (path (σ k) ∈ (λ e, path (σ e)) <$> left_spine t
   ∧ insert_node (PathComparator σ) k t = None)
  ∨ ((path (σ k) ∉ (λ e, path (σ e)) <$> left_spine t)
     ∧ ∃ t', insert_node (PathComparator σ) k t = Some t'
             ∧ elements t' = k :: elements t).
Proof.
  induction t as [|b l IHl v r _].
  { right. split; [by intros ?%elem_of_nil|]. by eexists. }
  cbn [insert_node left_spine]. rewrite fmap_cons.
  destruct (PathComparator σ k v) eqn:Hkv.
  - apply PathComparator_true in Hkv.
    destruct IHl as [[Hin ->]|(Hout & l' & -> & Hl')].
    + left. split; [by right|done].
    + right. split.
      * intros [?|?]%elem_of_cons; done.
      * eexists. split; [done|].
        rewrite elements_balance_left, Hl'. done.
  - apply PathComparator_false in Hkv.
    assert (PathComparator σ v k = false) as -> by by apply PathComparator_false.
    left. split; [|done]. rewrite Hkv. by left.
Qed.

Lemma set_insert_PathComparator (σ : store) (k : addr) (t : tree addr) :
  (path (σ k) ∈ (λ e, path (σ e)) <$> left_spine t
   ∧ set_insert (PathComparator σ) k t = t)
  ∨ ((path (σ k) ∉ (λ e, path (σ e)) <$> left_spine t)
     ∧ elements (set_insert (PathComparator σ) k t) = k :: elements t).
Proof.
  unfold set_insert.
  destruct (insert_node_PathComparator σ k t) as [[Hin ->]|(Hout & t' & -> & Ht')].
  - by left.
  - right. by rewrite elements_blacken.
Qed.

(** A key whose path no element has is inserted in front. *)
Lemma set_insert_new_path (σ : store) (k : addr) (t : tree addr) :
  path (σ k) ∉ (λ e, path (σ e)) <$> elements t →
  elements (set_insert (PathComparator σ) k t) = k :: elements t.
Proof.
  intros Hout. destruct (set_insert_PathComparator σ k t) as [[Hin _]|[_ Hel]]; [|done].
  destruct Hout. apply list_elem_of_fmap in Hin as (e & -> & He).
  apply list_elem_of_fmap. exists e. split; [done|]. by apply left_spine_elements.
Qed.

(** After the insertion of a key, inserted or not, the left spine holds a
    node with its path. *)
Lemma set_insert_left_spine (σ : store) (k : addr) (t : tree addr) :
  path (σ k) ∈ (λ e, path (σ e)) <$> left_spine (set_insert (PathComparator σ) k t).
Proof.
  destruct (set_insert_PathComparator σ k t) as [[Hin ->]|[_ Hel]]; [done|].
  apply list_elem_of_fmap. exists k. split; [done|].
  by eapply elements_head_left_spine.
Qed.

Lemma foldl_ext_eq {A B} (f g : A → B → A) (a : A) (l : list B) :
  (∀ a x, f a x = g a x) → foldl f a l = foldl g a l.
Proof. intros Hfg. revert a. induction l as [|x l IH]; intros a; cbn; [done|]. by rewrite Hfg, IH. Qed.

Lemma foldl_bind {A B C} (f : A → C → A) (g : B → list C) (a : A) (l : list B) :
  foldl f a (l ≫= g) = foldl (λ a x, foldl f a (g x)) a l.
Proof.
  revert a. induction l as [|x l IH]; intros a; [done|].
  rewrite bind_cons, foldl_app. cbn. apply IH.
Qed.

(** The loop nest of [file_refs_set] inserts the references of the table one
    after the other. *)
Lemma file_refs_set_flat (σ : store) (table : ResourceTable.t addr) :
  file_refs_set σ table
  = foldl (λ file_refs file_ref, set_insert (PathComparator σ) file_ref file_refs)
      Leaf (table_file_refs table).
Proof.
  unfold file_refs_set, table_file_refs.
  rewrite foldl_bind. apply foldl_ext_eq. intros s1 package.
  unfold package_refs. rewrite foldl_bind. apply foldl_ext_eq. intros s2 type.
  unfold type_refs. rewrite foldl_bind. apply foldl_ext_eq. intros s3 entry.
  unfold entry_refs. rewrite foldl_bind. apply foldl_ext_eq. intros s4 c.
  unfold config_value_refs. by destruct (ValueCast_FileReference _).
Qed.

(** The set holds inserted keys only. *)
Lemma elem_of_foldl_set_insert {A} (comp : A → A → bool) (l : list A) (t : tree A)
    (a : A) :
  a ∈ elements (foldl (λ s k, set_insert comp k s) t l) → a ∈ elements t ∨ a ∈ l.
Proof.
  revert t. induction l as [|k l IH]; intros t Hin; cbn in Hin; [by left|].
  apply IH in Hin as [Hin|Hin]; [|right; by right].
  apply elem_of_set_insert in Hin as [->|Hin]; [right; by left|by left].
Qed.

(** Keys that are inserted once each occur once each. *)
Lemma foldl_set_insert_NoDup {A} (comp : A → A → bool) (l : list A) (t : tree A) :
  NoDup (elements t ++ l) →
  NoDup (elements (foldl (λ s k, set_insert comp k s) t l)).
Proof.
  revert t. induction l as [|k l IH]; intros t Hnd; cbn.
  { by rewrite app_nil_r in Hnd. }
  apply IH.
  apply NoDup_app in Hnd as (Ht & Hdisj & [Hk Hl]%NoDup_cons).
  apply NoDup_app. split_and!.
  - destruct (set_insert_elements comp k t) as [->|(l1 & l2 & Ht12 & ->)]; [done|].
    rewrite Ht12 in *. apply NoDup_app in Ht as (Hl1 & Hl12 & Hl2).
    apply NoDup_app. split_and!; [done| |].
    + intros x Hx [->|Hx2]%elem_of_cons; [|by eapply Hl12].
      apply (Hdisj k); [apply elem_of_app; by left|by left].
    + apply NoDup_cons. split; [|done]. intros Hk2.
      apply (Hdisj k); [apply elem_of_app; by right|by left].
  - intros x [->|Hx]%elem_of_set_insert; [done|].
    intros Hxl. apply (Hdisj x Hx). by right.
  - done.
Qed.

Lemma collect_file_refs_subseteq (σ : store) (table : ResourceTable.t addr) (r : addr) :
  r ∈ collect_file_refs σ table → r ∈ table_file_refs table.
Proof.
  unfold collect_file_refs. rewrite file_refs_set_flat.
  by intros [?%elem_of_nil|?]%elem_of_foldl_set_insert.
Qed.

(** Every value of the table owns its file reference, so the set holds no
    reference twice, whatever the paths are. *)
Lemma collect_file_refs_NoDup (σ : store) (table : ResourceTable.t addr) :
  table_wf table → NoDup (collect_file_refs σ table).
Proof.
  intros Hwf. unfold collect_file_refs. rewrite file_refs_set_flat.
  by apply foldl_set_insert_NoDup.
Qed.

(** When the paths are pairwise different every reference is inserted, each
    in front of the earlier ones. *)
Lemma collect_distinct_paths (σ : store) (l : list addr) (t : tree addr) :
  NoDup ((λ e, path (σ e)) <$> (reverse l ++ elements t)) →
  elements (foldl (λ file_refs file_ref,
                     set_insert (PathComparator σ) file_ref file_refs) t l)
  = reverse l ++ elements t.
Proof.
  revert t. induction l as [|k l IH]; intros t Hnd; [done|]. cbn [foldl].
  rewrite reverse_cons, <- app_assoc in *. cbn [app] in *.
  assert (Hk : elements (set_insert (PathComparator σ) k t) = k :: elements t).
  { apply set_insert_new_path.
    rewrite fmap_app, fmap_cons in Hnd.
    apply NoDup_app in Hnd as (_ & _ & Hnd). by apply NoDup_cons in Hnd as [? _]. }
  rewrite IH; by rewrite Hk.
Qed.






(** C2, as the code has it: the comparator is symmetric on two references
    with different paths, so it orders neither before the other and is no
    order on the paths; the set then iterates the references in the reverse
    of the order in which the table was traversed, whatever their paths
    are. *)
Theorem PathComparator_symmetric_on_distinct_paths :
  path (example_store 1%positive) = "res/drawable/bar.png"
  ∧ path (example_store 2%positive) = "res/drawable/foo.png"
  ∧ PathComparator example_store 1%positive 2%positive = true
  ∧ PathComparator example_store 2%positive 1%positive = true
  ∧ collect_file_refs example_store
      (table_of "drawable" [file_entry "icons" 0x7f010000 I [1; 2]%positive])
    = [2; 1]%positive
  ∧ collect_file_refs example_store
      (table_of "drawable" [file_entry "icons" 0x7f010000 I [2; 1]%positive])
    = [1; 2]%positive.
Proof. repeat split; by vm_compute. Qed.

(** ** Name collapsing *)

Lemma to_uint32_to_int (x : Z) : 0 ≤ x < 2 ^ 32 → to_uint32 (to_int x) = x.
Proof.
  intros Hx. unfold to_uint32, to_int.
  rewrite Zminus_mod_idemp_l.
  replace (x + 2 ^ 31 - 2 ^ 31) with x by lia. by apply Z.mod_small.
Qed.

Lemma ResourceId_key (id : ResourceId.t) :
  to_uint32 (to_int (ResourceId.id id)) = ResourceId.id id.
Proof.
  apply to_uint32_to_int. destruct id as [x Hx]. cbn.
  by apply bool_decide_unpack in Hx.
Qed.

(** The observer is called once, with the classification of the entry. *)
Lemma ObfuscateResourceName_observer {S} (collapse : bool)
    (exemptions : gset ResourceName.t) (type_name : ResourceNamedType)
    (entry : ResourceTableEntryView.t) (f : Result → ResourceName.t → S → S) (st : S) :
  ObfuscateResourceName collapse exemptions type_name entry f st
  = f (classification collapse exemptions type_name entry)
      (ResourceName.mk "" type_name (ResourceTableEntryView.name entry)) st.
Proof.
  unfold classification, ObfuscateResourceName.
  destruct (negb collapse || bool_decide _); [done|].
  by destruct (ResourceTableEntryView.overlayable_item entry).
Qed.

Lemma classification_cases (collapse : bool) (exemptions : gset ResourceName.t)
    (type_name : ResourceNamedType) (entry : ResourceTableEntryView.t) :
  classification collapse exemptions type_name entry
  = if negb collapse
       || bool_decide (ResourceName.mk "" type_name (ResourceTableEntryView.name entry)
                       ∈ exemptions)
    then Keep_ExemptionList
    else if ResourceTableEntryView.overlayable_item entry is Some _
         then Keep_Overlayable else Obfuscated.
Proof.
  unfold classification, ObfuscateResourceName.
  destruct (negb collapse || bool_decide _); [done|].
  by destruct (ResourceTableEntryView.overlayable_item entry).
Qed.

Lemma collapse_entry_records {R} (collapse : bool) (exemptions : gset ResourceName.t)
    (type : ResourceTableType.t R) (captured : Z * gmap Z string)
    (entry : ResourceEntry.t R) :
  (collapse_entry collapse exemptions type captured entry).2
  = record_all captured.2 (entry_records collapse exemptions type entry).
Proof.
  unfold collapse_entry, entry_records.
  destruct (ResourceEntry.id entry) as [id|]; [|done].
  destruct (decide (ResourceEntry.name entry = "")); [done|].
  rewrite ObfuscateResourceName_observer. unfold entry_view. cbn [fmap option_fmap option_map].
  unfold onObfuscate. cbn [ResourceTableEntryView.name ResourceName.entry].
  destruct (decide (classification _ _ _ _ = Obfuscated)) as [Hc|Hc]; [|done].
  cbn. by rewrite ResourceId_key.
Qed.

Lemma foldl_snd {A B C D} (f : A * B → C → A * B) (g : C → list D)
    (h : B → D → B) (st : A * B) (l : list C) :
  (∀ st x, (f st x).2 = foldl h st.2 (g x)) →
  (foldl f st l).2 = foldl h st.2 (l ≫= g).
Proof.
  intros Hf. revert st. induction l as [|x l IH]; intros st; [done|].
  rewrite bind_cons, foldl_app. cbn [foldl]. by rewrite IH, Hf.
Qed.

Lemma list_bind_bind {A B C} (f : A → list B) (g : B → list C) (l : list A) :
  (l ≫= f) ≫= g = l ≫= (λ x, f x ≫= g).
Proof.
  induction l as [|x l IH]; [done|]. by rewrite !bind_cons, bind_app, IH.
Qed.

Lemma list_bind_nil {A B} (f : A → list B) (l : list A) :
  (∀ x, f x = []) → l ≫= f = [].
Proof. intros Hf. induction l as [|x l IH]; [done|]. by rewrite bind_cons, Hf, IH. Qed.

Lemma entry_records_disabled {R} (exemptions : gset ResourceName.t)
    (type : ResourceTableType.t R) (entry : ResourceEntry.t R) :
  entry_records false exemptions type entry = [].
Proof.
  unfold entry_records. destruct (ResourceEntry.id entry); [|done].
  destruct (decide (ResourceEntry.name entry = "")); [done|].
  by rewrite classification_cases.
Qed.

(** The map that the driver leaves is the map it was given with the records
    of the table inserted in the order of the loops. *)
Lemma HandleCollapseKeyStringPool_record_all {R} (table : ResourceTable.t R)
    (collapse : bool) (exemptions : gset ResourceName.t) (m : gmap Z string) :
  HandleCollapseKeyStringPool table collapse exemptions m
  = (true, record_all m (obfuscated_records collapse exemptions table)).
Proof.
  unfold HandleCollapseKeyStringPool, obfuscated_records.
  destruct collapse; cbn [negb].
  - f_equal. unfold table_entries, record_all. rewrite list_bind_bind.
    apply (foldl_snd _ _ (λ m r, map_insert r.1 r.2 m) (0, m)).
    intros st package. rewrite list_bind_bind. apply foldl_snd.
    intros st' type. rewrite list_bind_bind.
    rewrite (foldl_snd _
      (λ entry, entry_records true exemptions type entry)
      (λ m r, map_insert r.1 r.2 m)).
    + f_equal. apply list_bind_ext; [|done]. intros entry.
      by rewrite bind_singleton.
    + intros st'' entry. apply collapse_entry_records.
  - f_equal. rewrite list_bind_nil; [done|].
    intros [type entry]. apply entry_records_disabled.
Qed.

Lemma map_insert_lookup_inv `{Countable K} {V} (m : gmap K V) (k i : K) (v n : V) :
  map_insert k v m !! i = Some n → m !! i = Some n ∨ (k = i ∧ v = n ∧ m !! k = None).
Proof.
  unfold map_insert. destruct (m !! k) eqn:Hk; [by left|].
  destruct (decide (k = i)) as [->|Hne].
  - rewrite lookup_insert_eq. intros [= ->]. by right.
  - rewrite lookup_insert_ne by done. by left.
Qed.

Lemma map_insert_lookup_Some `{Countable K} {V} (m : gmap K V) (k i : K) (v n : V) :
  m !! i = Some n → map_insert k v m !! i = Some n.
Proof.
  intros Hi. unfold map_insert. destruct (m !! k) eqn:Hk; [done|].
  rewrite lookup_insert_ne; [done|]. intros ->. congruence.
Qed.

Lemma map_insert_lookup_key `{Countable K} {V} (m : gmap K V) (k : K) (v : V) :
  is_Some (map_insert k v m !! k).
Proof.
  unfold map_insert. destruct (m !! k) eqn:Hk; [by rewrite Hk|].
  by rewrite lookup_insert_eq.
Qed.

Lemma map_insert_lookup_fresh `{Countable K} {V} (m : gmap K V) (k : K) (v : V) :
  m !! k = None → map_insert k v m !! k = Some v.
Proof. intros Hk. unfold map_insert. rewrite Hk. apply lookup_insert_eq. Qed.

Lemma map_insert_lookup_ne `{Countable K} {V} (m : gmap K V) (k i : K) (v : V) :
  k ≠ i → map_insert k v m !! i = m !! i.
Proof.
  intros Hne. unfold map_insert. destruct (m !! k); [done|].
  by rewrite lookup_insert_ne.
Qed.

Lemma record_all_lookup_Some (m : gmap Z string) (records : list (Z * string))
    (i : Z) (n : string) :
  m !! i = Some n → record_all m records !! i = Some n.
Proof.
  revert m. induction records as [|r records IH]; intros m Hi; [done|].
  apply IH. by apply map_insert_lookup_Some.
Qed.

Lemma record_all_lookup_inv (m : gmap Z string) (records : list (Z * string))
    (i : Z) (n : string) :
  record_all m records !! i = Some n → m !! i = Some n ∨ (i, n) ∈ records.
Proof.
  revert m. induction records as [|[k v] records IH]; intros m Hi; [by left|].
  apply IH in Hi as [Hi|Hi]; [|right; by right]. cbn [fst snd] in Hi.
  apply map_insert_lookup_inv in Hi as [Hi|(-> & -> & _)]; [by left|right; by left].
Qed.

Lemma record_all_lookup_key (m : gmap Z string) (records : list (Z * string))
    (i : Z) (n : string) :
  (i, n) ∈ records → is_Some (record_all m records !! i).
Proof.
  revert m. induction records as [|[k v] records IH]; intros m Hin.
  - by apply elem_of_nil in Hin.
  - apply elem_of_cons in Hin as [[= -> ->]|Hin]; [|by apply IH].
    destruct (map_insert_lookup_key m k v) as [v' Hv']. cbn [record_all foldl].
    exists v'. by apply record_all_lookup_Some.
Qed.

Lemma elem_of_entry_records {R} (collapse : bool) (exemptions : gset ResourceName.t)
    (type : ResourceTableType.t R) (entry : ResourceEntry.t R) (i : Z) (n : string) :
  (i, n) ∈ entry_records collapse exemptions type entry ↔
  ∃ id, ResourceEntry.id entry = Some id ∧ ResourceId.id id = i
        ∧ ResourceEntry.name entry = n ∧ n ≠ ""
        ∧ classification collapse exemptions (ResourceTableType.named_type type)
            (entry_view entry) = Obfuscated.
Proof.
  unfold entry_records. split.
  - destruct (ResourceEntry.id entry) as [id|]; [|by intros ?%elem_of_nil].
    destruct (decide (ResourceEntry.name entry = "")); [by intros ?%elem_of_nil|].
    destruct (decide (classification _ _ _ _ = Obfuscated)); [|by intros ?%elem_of_nil].
    intros [= -> ->]%list_elem_of_singleton. exists id. naive_solver.
  - intros (id & -> & <- & <- & Hn & Hc).
    rewrite decide_False, decide_True by done. by apply list_elem_of_singleton.
Qed.

Lemma elem_of_obfuscated_records {R} (collapse : bool)
    (exemptions : gset ResourceName.t) (table : ResourceTable.t R) (i : Z) (n : string) :
  (i, n) ∈ obfuscated_records collapse exemptions table ↔
  ∃ type entry id,
    (type, entry) ∈ table_entries table
    ∧ ResourceEntry.id entry = Some id ∧ ResourceId.id id = i
    ∧ ResourceEntry.name entry = n ∧ n ≠ ""
    ∧ classification collapse exemptions (ResourceTableType.named_type type)
        (entry_view entry) = Obfuscated.
Proof.
  unfold obfuscated_records. rewrite list_elem_of_bind. split.
  - intros ([type entry] & Hrec & Hin). cbn in Hrec.
    apply elem_of_entry_records in Hrec as (id & ? & ? & ? & ? & ?).
    by exists type, entry, id.
  - intros (type & entry & id & Hin & Hrec). exists (type, entry). split; [|done].
    apply elem_of_entry_records. by exists id.
Qed.

(** Every binding that the driver adds is the resolved id and the name of an
    entry of the table that has an id and a name and is classified
    [Obfuscated]. *)
Lemma id_resource_map_sources {R} (table : ResourceTable.t R) (collapse : bool)
    (exemptions : gset ResourceName.t) (m : gmap Z string) (i : Z) (n : string) :
  (HandleCollapseKeyStringPool table collapse exemptions m).2 !! i = Some n →
  m !! i = Some n
  ∨ ∃ type entry id,
      (type, entry) ∈ table_entries table
      ∧ ResourceEntry.id entry = Some id ∧ ResourceId.id id = i
      ∧ ResourceEntry.name entry = n ∧ n ≠ ""
      ∧ classification collapse exemptions (ResourceTableType.named_type type)
          (entry_view entry) = Obfuscated.
Proof.
  rewrite HandleCollapseKeyStringPool_record_all. cbn [snd].
  intros [Hm|Hrec]%record_all_lookup_inv; [by left|right].
  by apply elem_of_obfuscated_records.
Qed.

Section name_collapse.
Context {R : Type}.
Implicit Types (table : ResourceTable.t R) (type : ResourceTableType.t R)
  (entry : ResourceEntry.t R) (exemptions : gset ResourceName.t)
  (m : gmap Z string).

(** C9: the driver passes over an entry that lacks a resolved id or has an
    empty name without classifying it; it always reports success, and the
    map it leaves is the given map with the pair (resolved 32-bit id, name)
    inserted for exactly the entries that have an id and a name and are
    classified [Obfuscated]: every binding that was not there before comes
    from such an entry, and the id of each such entry is bound. *)
Theorem HandleCollapseKeyStringPool_obfuscated_only table (collapse : bool)
    exemptions m :
  let result := HandleCollapseKeyStringPool table collapse exemptions m in
  (∀ type captured entry,
     ResourceEntry.id entry = None ∨ ResourceEntry.name entry = "" →
     collapse_entry collapse exemptions type captured entry = captured)
  ∧ result = (true, record_all m (obfuscated_records collapse exemptions table))
  ∧ (∀ i n, (i, n) ∈ obfuscated_records collapse exemptions table ↔
       ∃ type entry id,
         (type, entry) ∈ table_entries table
         ∧ ResourceEntry.id entry = Some id ∧ ResourceId.id id = i
         ∧ ResourceEntry.name entry = n ∧ n ≠ ""
         ∧ classification collapse exemptions (ResourceTableType.named_type type)
             (entry_view entry) = Obfuscated)
  ∧ (∀ i n, result.2 !! i = Some n →
       m !! i = Some n ∨ (i, n) ∈ obfuscated_records collapse exemptions table)
  ∧ (∀ i n, (i, n) ∈ obfuscated_records collapse exemptions table →
       0 ≤ i < 2 ^ 32
       ∧ is_Some (result.2 !! i)
       ∧ (m !! i = None →
          (∀ n', (i, n') ∈ obfuscated_records collapse exemptions table → n' = n) →
          result.2 !! i = Some n)).
Proof.
  intros result. subst result.
  rewrite HandleCollapseKeyStringPool_record_all. cbn [snd].
  split; [|split; [done|split; [|split]]].
  - intros type captured entry [Hid|Hname]; unfold collapse_entry.
    + by rewrite Hid.
    + destruct (ResourceEntry.id entry); [|done]. by rewrite decide_True.
  - apply elem_of_obfuscated_records.
  - apply record_all_lookup_inv.
  - intros i n Hin.
    destruct (record_all_lookup_key m _ i n Hin) as [n' Hn'].
    split; [|split; [by exists n'|]].
    + apply elem_of_obfuscated_records in Hin
        as (type & entry & [x Hx] & _ & _ & <- & _).
      cbn. exact (bool_decide_unpack _ Hx).
    + intros Hfresh Huniq. rewrite Hn'. f_equal.
      apply record_all_lookup_inv in Hn' as [Hm|Hrec]; [congruence|].
      by apply Huniq.
Qed.

(** C5: an entry that carries an overlayable marker is never classified
    [Obfuscated]: it is [Keep_Overlayable] when collapsing is enabled and
    its name is not in the exemption set, and [Keep_ExemptionList]
    otherwise.  The driver leaves the map as it is when it meets such an
    entry, and every binding that the driver adds comes from an entry
    without a marker. *)
Theorem overlayable_entry_kept table (collapse : bool) exemptions m type entry :
  ResourceEntry.overlayable_item entry ≠ None →
  let resource_name :=
    ResourceName.mk "" (ResourceTableType.named_type type) (ResourceEntry.name entry) in
  let outcome :=
    classification collapse exemptions (ResourceTableType.named_type type)
      (entry_view entry) in
  outcome ≠ Obfuscated
  ∧ (collapse = true → resource_name ∉ exemptions → outcome = Keep_Overlayable)
  ∧ (collapse = false ∨ resource_name ∈ exemptions → outcome = Keep_ExemptionList)
  ∧ (∀ captured,
       (collapse_entry collapse exemptions type captured entry).2 = captured.2)
  ∧ (∀ i n,
       (HandleCollapseKeyStringPool table collapse exemptions m).2 !! i = Some n →
       m !! i = Some n
       ∨ ∃ type' entry' id,
           (type', entry') ∈ table_entries table
           ∧ ResourceEntry.id entry' = Some id ∧ ResourceId.id id = i
           ∧ ResourceEntry.name entry' = n
           ∧ ResourceEntry.overlayable_item entry' = None).
Proof.
  intros Hmarker resource_name outcome.
  assert (Hout : outcome ≠ Obfuscated).
  { subst outcome. rewrite classification_cases.
    destruct (negb collapse || bool_decide _); [done|].
    cbn. by destruct (ResourceEntry.overlayable_item entry). }
  split; [done|]. subst outcome. split; [|split; [|split]].
  - intros -> Hex. rewrite classification_cases. cbn.
    rewrite bool_decide_eq_false_2 by done.
    by destruct (ResourceEntry.overlayable_item entry).
  - intros Hex. rewrite classification_cases. cbn.
    destruct Hex as [->|Hex]; [done|].
    rewrite bool_decide_eq_true_2 by done. by rewrite orb_true_r.
  - intros captured. rewrite collapse_entry_records.
    unfold entry_records. destruct (ResourceEntry.id entry); [|done].
    destruct (decide (ResourceEntry.name entry = "")); [done|].
    by rewrite decide_False.
  - intros i n [Hm|Hsrc]%id_resource_map_sources; [by left|right].
    destruct Hsrc as (type' & entry' & id & Hin & Hid & Hi & Hn & _ & Hc).
    exists type', entry', id. repeat (split; [done|]).
    rewrite classification_cases in Hc.
    destruct (negb collapse || bool_decide _); [done|].
    cbn in Hc. by destruct (ResourceEntry.overlayable_item entry').
Qed.

(** C6: the outcome is decided in order.  It is [Keep_ExemptionList] when
    collapsing is disabled or the name of the entry, under its type, is in
    the exemption set; otherwise [Keep_Overlayable] when the entry carries
    an overlayable marker; otherwise [Obfuscated].  The observer receives
    this outcome.  The driver leaves the map as it is when it meets an
    exempt entry, and every binding that the driver adds comes from an
    entry that is not exempt, met with collapsing enabled. *)
Theorem classification_in_order table (collapse : bool) exemptions m type entry :
  let resource_name :=
    ResourceName.mk "" (ResourceTableType.named_type type) (ResourceEntry.name entry) in
  let outcome :=
    classification collapse exemptions (ResourceTableType.named_type type)
      (entry_view entry) in
  (collapse = false ∨ resource_name ∈ exemptions → outcome = Keep_ExemptionList)
  ∧ (collapse = true → resource_name ∉ exemptions →
     ResourceEntry.overlayable_item entry ≠ None → outcome = Keep_Overlayable)
  ∧ (collapse = true → resource_name ∉ exemptions →
     ResourceEntry.overlayable_item entry = None → outcome = Obfuscated)
  ∧ (∀ (S : Type) (observer : Result → ResourceName.t → S → S) (st : S),
       ObfuscateResourceName collapse exemptions (ResourceTableType.named_type type)
         (entry_view entry) observer st
       = observer outcome resource_name st)
  ∧ (resource_name ∈ exemptions →
     ∀ captured,
       (collapse_entry collapse exemptions type captured entry).2 = captured.2)
  ∧ (∀ i n,
       (HandleCollapseKeyStringPool table collapse exemptions m).2 !! i = Some n →
       m !! i = Some n
       ∨ ∃ type' entry' id,
           (type', entry') ∈ table_entries table
           ∧ ResourceEntry.id entry' = Some id ∧ ResourceId.id id = i
           ∧ ResourceEntry.name entry' = n
           ∧ collapse = true
           ∧ ResourceName.mk "" (ResourceTableType.named_type type') n ∉ exemptions).
Proof.
  intros resource_name outcome. subst outcome.
  split; [|split; [|split; [|split; [|split]]]].
  - intros Hex. rewrite classification_cases. cbn.
    destruct Hex as [->|Hex]; [done|].
    rewrite bool_decide_eq_true_2 by done. by rewrite orb_true_r.
  - intros -> Hex Hmarker. rewrite classification_cases. cbn.
    rewrite bool_decide_eq_false_2 by done.
    by destruct (ResourceEntry.overlayable_item entry).
  - intros -> Hex Hmarker. rewrite classification_cases. cbn.
    rewrite bool_decide_eq_false_2 by done. by rewrite Hmarker.
  - intros S observer st. apply ObfuscateResourceName_observer.
  - intros Hex captured. rewrite collapse_entry_records.
    unfold entry_records. destruct (ResourceEntry.id entry); [|done].
    destruct (decide (ResourceEntry.name entry = "")); [done|].
    rewrite decide_False; [done|]. rewrite classification_cases. cbn.
    rewrite bool_decide_eq_true_2 by done. by rewrite orb_true_r.
  - intros i n [Hm|Hsrc]%id_resource_map_sources; [by left|right].
    destruct Hsrc as (type' & entry' & id & Hin & Hid & Hi & Hn & _ & Hc).
    exists type', entry', id. repeat (split; [done|]).
    rewrite classification_cases in Hc. cbn in Hc. rewrite Hn in Hc.
    destruct collapse; [|done]. split; [done|]. intros Hex.
    by rewrite bool_decide_eq_true_2 in Hc.
Qed.
End name_collapse.

(** An overlayable entry whose name is exempt is classified
    [Keep_ExemptionList], not [Keep_Overlayable], also with collapsing
    enabled. *)
Lemma overlayable_exempt_entry_is_Keep_ExemptionList :
  let entry := ResourceTableEntryView.mk "app_name" (Some 0) (Some ()) in
  ResourceTableEntryView.overlayable_item entry ≠ None
  ∧ ResourceName.mk "" "string" "app_name" ∈ exempt_app_name
  ∧ classification true exempt_app_name "string" entry = Keep_ExemptionList
  ∧ classification true exempt_app_name "string" entry ≠ Keep_Overlayable.
Proof.
  cbn. split; [done|]. split; [by apply elem_of_singleton|].
  rewrite classification_cases. cbn.
  rewrite bool_decide_eq_true_2 by (by apply elem_of_singleton). done.
Qed.

(** ** Shortened paths *)

Lemma all_digits_app (s t : string) :
  all_digits (s +:+ t) = all_digits s && all_digits t.
Proof.
  induction s as [|c s IH]; [done|].
  rewrite string_app_cons. cbn. by rewrite IH, andb_assoc.
Qed.

Lemma pretty_N_char_digit (x : N) : Ascii.is_nat (pretty_N_char x) ≠ None.
Proof. unfold pretty_N_char. by repeat case_match. Qed.

(** The digits that [pretty_N_go] puts in front of its accumulator. *)
Lemma pretty_N_go_digits (x : N) (s : string) :
  ∃ d, pretty_N_go x s = d +:+ s ∧ all_digits d = true ∧ ((0 < x)%N → d ≠ "").
Proof.
  revert s. induction (N.lt_wf_0 x) as [x _ IH]; intros s.
  destruct (decide (x = 0%N)) as [->|Hx].
  - exists "". rewrite pretty_N_go_0. split; [done|]. split; [done|]. lia.
  - rewrite pretty_N_go_step by lia.
    destruct (IH (x `div` 10)%N ltac:(apply N.div_lt; lia)
                (String (pretty_N_char (x `mod` 10)) s)) as (d & -> & Hd & _).
    exists (d +:+ String (pretty_N_char (x `mod` 10)) "").
    split; [by rewrite string_app_assoc|]. split.
    + rewrite all_digits_app, Hd. cbn.
      rewrite bool_decide_eq_true_2; [done|]. apply pretty_N_char_digit.
    + intros _ Hnil. apply (f_equal String.length) in Hnil.
      rewrite string_app_length in Hnil. cbn in Hnil. lia.
Qed.

Lemma to_string_pos_digits (c : Z) :
  0 < c → all_digits (to_string c) = true ∧ to_string c ≠ "".
Proof.
  intros Hc. destruct c as [|p|p]; try lia.
  unfold to_string, pretty, pretty_Z, pretty, pretty_positive, pretty, pretty_N.
  rewrite decide_False by done.
  destruct (pretty_N_go_digits (N.pos p) "") as (d & -> & Hd & Hne).
  rewrite string_app_nil_r. split; [done|]. apply Hne. lia.
Qed.

Lemma GetShortenedPath_shape (fn ext : string) (c : Z) :
  GetShortenedPath fn ext c = "res/" +:+ fn +:+ count_suffix c +:+ ext.
Proof.
  unfold GetShortenedPath, count_suffix. destruct (c >? 0).
  - by rewrite !string_app_assoc.
  - by rewrite !string_app_assoc.
Qed.

Lemma count_suffix_digits (c : Z) : all_digits (count_suffix c) = true.
Proof.
  unfold count_suffix. destruct (c >? 0) eqn:Hc; [|done].
  apply to_string_pos_digits. lia.
Qed.

Lemma count_suffix_inj (c c' : Z) :
  0 ≤ c → 0 ≤ c' → count_suffix c = count_suffix c' → c = c'.
Proof.
  unfold count_suffix. intros Hc Hc' Heq.
  destruct (c >? 0) eqn:H1, (c' >? 0) eqn:H2.
  - by apply (inj pretty) in Heq.
  - destruct (to_string_pos_digits c) as [_ Hne]; [lia|]. by rewrite Heq in Hne.
  - destruct (to_string_pos_digits c') as [_ Hne]; [lia|]. by rewrite <- Heq in Hne.
  - lia.
Qed.

Lemma count_suffix_of_nat (k : nat) : count_suffix (Z.of_nat k) = collision_suffix k.
Proof. by destruct k. Qed.

(** Digits followed by an extension that does not begin with a digit split
    in one way only. *)
Lemma digits_extension_inj (d d' ext ext' : string) :
  all_digits d = true → all_digits d' = true →
  no_leading_digit ext = true → no_leading_digit ext' = true →
  d +:+ ext = d' +:+ ext' → d = d' ∧ ext = ext'.
Proof.
  intros Hd Hd' He He'. revert d' Hd'.
  induction d as [|c d IH]; intros [|c' d'] Hd' Heq.
  - done.
  - rewrite string_app_cons in Heq. change ("" +:+ ext) with ext in Heq. subst ext.
    cbn in He, Hd'. apply andb_true_iff in Hd' as [Hc%bool_decide_eq_true _].
    by apply bool_decide_eq_true in He.
  - rewrite string_app_cons in Heq. change ("" +:+ ext') with ext' in Heq. subst ext'.
    cbn in He', Hd. apply andb_true_iff in Hd as [Hc%bool_decide_eq_true _].
    by apply bool_decide_eq_true in He'.
  - rewrite !string_app_cons in Heq. injection Heq as -> Heq.
    cbn in Hd, Hd'. apply andb_true_iff in Hd as [_ Hd].
    apply andb_true_iff in Hd' as [_ Hd'].
    destruct (IH Hd d' Hd' Heq) as [-> ->]. done.
Qed.

(** For one alias and one extension the shortened paths of different counts
    differ. *)
Lemma GetShortenedPath_inj_count (fn ext : string) (c c' : Z) :
  0 ≤ c → 0 ≤ c' → GetShortenedPath fn ext c = GetShortenedPath fn ext c' → c = c'.
Proof.
  intros Hc Hc'. rewrite !GetShortenedPath_shape.
  intros Heq%(inj (String.app "res/"))%(inj (String.app fn))%string_app_inj_r.
  by apply count_suffix_inj.
Qed.

(** Aliases of one length and extensions without a leading digit: a
    shortened path determines its alias, its extension and its count. *)
Lemma GetShortenedPath_inj (fn fn' ext ext' : string) (c c' : Z) :
  String.length fn = String.length fn' →
  no_leading_digit ext = true → no_leading_digit ext' = true →
  0 ≤ c → 0 ≤ c' →
  GetShortenedPath fn ext c = GetShortenedPath fn' ext' c' →
  fn = fn' ∧ ext = ext' ∧ c = c'.
Proof.
  intros Hlen He He' Hc Hc'. rewrite !GetShortenedPath_shape.
  intros Heq%(inj (String.app "res/")).
  apply string_app_inv in Heq as [-> Heq]; [|done].
  apply digits_extension_inj in Heq as [Hs ->];
    [|apply count_suffix_digits..|done|done].
  by apply count_suffix_inj in Hs.
Qed.

(** ** The collision loop *)

(** Paths that differ pairwise and all lie in a set are no more than the set
    has elements. *)
Lemma distinct_paths_bound (f : Z → string) (n : nat) (X : gset string) :
  (∀ c c', 0 ≤ c → 0 ≤ c' → f c = f c' → c = c') →
  (∀ c, 0 ≤ c < Z.of_nat n → f c ∈ X) →
  (n ≤ size X)%nat.
Proof.
  intros Hinj Hin.
  assert (Hnd : NoDup (f <$> seqZ 0 (Z.of_nat n))).
  { apply NoDup_fmap_2_strong; [|apply NoDup_seqZ].
    intros c c' Hc%elem_of_seqZ Hc'%elem_of_seqZ. apply Hinj; lia. }
  assert (Hsub : list_to_set (f <$> seqZ 0 (Z.of_nat n)) ⊆ X).
  { intros s Hs. apply elem_of_list_to_set, list_elem_of_fmap in Hs
      as (c & -> & Hc%elem_of_seqZ).
    apply Hin. lia. }
  apply subseteq_size in Hsub.
  rewrite size_list_to_set, length_fmap, length_seqZ in Hsub by done. lia.
Qed.

(** With fuel beyond the size of the set the loop returns, and it returns
    the least count whose path is not in the set. *)
Lemma collision_loop_least (X : gset string) (fn ext : string) (fuel : nat) (c0 : Z) :
  0 ≤ c0 →
  (∀ c, 0 ≤ c < c0 → GetShortenedPath fn ext c ∈ X) →
  (size X < Z.to_nat c0 + fuel)%nat →
  ∃ c, collision_loop fuel X fn ext c0 (GetShortenedPath fn ext c0)
       = Some (c, GetShortenedPath fn ext c)
       ∧ c0 ≤ c
       ∧ (GetShortenedPath fn ext c ∉ X)
       ∧ (∀ c', 0 ≤ c' < c → GetShortenedPath fn ext c' ∈ X).
Proof.
  revert c0. induction fuel as [|fuel IH]; intros c0 Hc0 Hbelow Hfuel.
  - exfalso.
    assert (Hb : (Z.to_nat c0 ≤ size X)%nat); [|lia].
    apply (distinct_paths_bound (GetShortenedPath fn ext)).
    + intros c c'. apply GetShortenedPath_inj_count.
    + intros c Hc. apply Hbelow. lia.
  - cbn [collision_loop].
    destruct (decide (GetShortenedPath fn ext c0 ∈ X)) as [Hin|Hout].
    + destruct (IH (c0 + 1)) as (c & Hloop & Hle & Hc & Hless).
      * lia.
      * intros c Hc. destruct (decide (c = c0)) as [->|]; [done|]. apply Hbelow. lia.
      * lia.
      * exists c. split; [done|]. split; [lia|done].
    + exists c0. split; [done|]. split; [lia|done].
Qed.

(** The counter of the loop is at most the number of paths assigned so far;
    as an [int] it does not overflow while that number is below [2^31]. *)
Lemma collision_count_bound (X : gset string) (fn ext : string) (c : Z) :
  0 ≤ c →
  (∀ c', 0 ≤ c' < c → GetShortenedPath fn ext c' ∈ X) →
  (Z.to_nat c ≤ size X)%nat.
Proof.
  intros Hc Hbelow. apply (distinct_paths_bound (GetShortenedPath fn ext)).
  - intros c1 c2. apply GetShortenedPath_inj_count.
  - intros c' Hc'. apply Hbelow. lia.
Qed.

(** ** The loop over the file references *)

(** An invariant of a range-[for]: it holds before the loop and every
    iteration returns and extends it by the element it handled. *)
Lemma for_each_invariant {S A} (body : S → A → option S)
    (Inv : list A → S → Prop) (l : list A) (st0 : S) :
  Inv [] st0 →
  (∀ done x rest st, l = done ++ x :: rest → Inv done st →
     ∃ st', body st x = Some st' ∧ Inv (done ++ [x]) st') →
  ∃ st', for_each body l st0 = Some st' ∧ Inv l st'.
Proof.
  intros Hinit Hstep.
  cut (∀ rest done st, l = done ++ rest → Inv done st →
         ∃ st', for_each body rest st = Some st' ∧ Inv l st').
  { intros Hgen. by apply (Hgen l [] st0). }
  induction rest as [|x rest IH]; intros done st Hl Hinv.
  - exists st. rewrite app_nil_r in Hl. by subst.
  - destruct (Hstep done x rest st Hl Hinv) as (st' & Hbody & Hinv').
    cbn [for_each]. rewrite Hbody. cbn.
    apply (IH (done ++ [x])); [|done]. by rewrite <- app_assoc.
Qed.

Lemma elem_of_snoc {A} (l : list A) (x y : A) : y ∈ l ++ [x] ↔ y ∈ l ∨ y = x.
Proof. by rewrite elem_of_app, list_elem_of_singleton. Qed.

Lemma snoc_eq_middle {A} (l l1 l2 : list A) (x r : A) :
  l ++ [x] = l1 ++ r :: l2 →
  (l2 = [] ∧ l1 = l ∧ r = x) ∨ (∃ l2', l2 = l2' ++ [x] ∧ l = l1 ++ r :: l2').
Proof.
  intros Heq. destruct l2 as [|y l2 _] using rev_ind.
  - left. by apply (app_inj_tail l l1 x r) in Heq as [-> ->].
  - right. exists l2.
    rewrite app_comm_cons, app_assoc in Heq. by apply app_inj_tail in Heq as [-> ->].
Qed.

Section shortening.
Context `{Platform}.

(** An iteration of the loop returns: it passes over a colour path, and
    otherwise assigns the path of the least count that is free. *)
Lemma shorten_file_ref_cases (num_chars : Z) (st : ShortenState) (file_ref : addr) :
  let file_path := path (st_store st file_ref) in
  let alias := ShortenFileName file_path num_chars in
  let extension := extension_of file_path in
  (is_color_path file_path = true ∧ shorten_file_ref num_chars st file_ref = Some st)
  ∨ (is_color_path file_path = false
     ∧ ∃ c, 0 ≤ c
         ∧ (GetShortenedPath alias extension c ∉ shortened_paths st)
         ∧ (∀ c', 0 ≤ c' < c → GetShortenedPath alias extension c' ∈ shortened_paths st)
         ∧ shorten_file_ref num_chars st file_ref
           = Some {| shortened_paths :=
                       {[GetShortenedPath alias extension c]} ∪ shortened_paths st;
                     st_shortened_path_map :=
                       map_insert file_path (GetShortenedPath alias extension c)
                         (st_shortened_path_map st);
                     st_store :=
                       <[file_ref := {| path := GetShortenedPath alias extension c |}]>
                         (st_store st) |}).
Proof.
  intros file_path alias extension.
  unfold shorten_file_ref, is_color_path, res_subdir_of.
  subst alias extension. unfold extension_of. fold file_path.
  destruct (ExtractResFilePathParts file_path) as [[res_subdir fn] ext]. cbn [fst snd].
  destruct (StartsWith res_subdir "res/color"); [by left|right].
  split; [done|].
  destruct (collision_loop_least (shortened_paths st)
              (ShortenFileName file_path num_chars) ext
              (S (size (shortened_paths st))) 0)
    as (c & Hloop & Hc & Hout & Hbelow); [lia|intros; lia|lia|].
  exists c. split; [done|]. split; [done|]. split; [done|].
  by rewrite Hloop.
Qed.

(** C7: the pass returns; a path whose resource subdirectory the loop
    recognises as a colour state list, by the prefix [res/color], is no key
    of [shortened_path_map] unless it was one before the pass, and a file
    reference with such a path keeps its path. *)
Theorem color_state_lists_untouched (table : ResourceTable.t addr) (σ : store)
    (path_map : gmap string string) :
  ∃ path_map' σ',
    HandleShortenFilePaths table σ path_map = Some (true, path_map', σ')
    ∧ (∀ file_path, is_color_path file_path = true →
         path_map !! file_path = None → path_map' !! file_path = None)
    ∧ (∀ file_ref, is_color_path (path (σ file_ref)) = true →
         σ' file_ref = σ file_ref).
Proof.
  unfold HandleShortenFilePaths.
  set (file_refs := collect_file_refs σ table).
  destruct (for_each_invariant (shorten_file_ref (num_chars_of file_refs))
    (λ _ st,
       (∀ file_path, is_color_path file_path = true →
          path_map !! file_path = None → st_shortened_path_map st !! file_path = None)
       ∧ (∀ file_ref, is_color_path (path (σ file_ref)) = true →
            st_store st file_ref = σ file_ref))
    file_refs
    {| shortened_paths := ∅; st_shortened_path_map := path_map; st_store := σ |})
    as (st' & Hrun & Hmap & Hstore).
  - done.
  - intros done x rest st _ [Hmap Hstore].
    destruct (shorten_file_ref_cases (num_chars_of file_refs) st x)
      as [[_ ->]|[Hcol (c & _ & _ & _ & ->)]]; [by exists st|].
    eexists. split; [done|]. cbn. split.
    + intros file_path Hp Hnone. rewrite map_insert_lookup_ne; [by apply Hmap|].
      intros <-. congruence.
    + intros file_ref Hp. rewrite fn_lookup_insert_ne; [by apply Hstore|].
      intros <-. rewrite Hstore in Hcol by done. congruence.
  - exists (st_shortened_path_map st'), (st_store st'). by rewrite Hrun.
Qed.

(** C10: on a table whose values each own their file reference, the pass
    returns, and the shortened paths it assigns are pairwise different: two
    different file references of the set [file_refs] that the loop shortens,
    be their original paths different or the same, end with different
    paths, and two different keys that the pass adds to [shortened_path_map]
    have different values. *)
Theorem shortened_paths_distinct (table : ResourceTable.t addr) (σ : store)
    (path_map : gmap string string) :
  let file_refs := collect_file_refs σ table in
  table_wf table →
  ∃ path_map' σ',
    HandleShortenFilePaths table σ path_map = Some (true, path_map', σ')
    ∧ (∀ r1 r2, r1 ∈ file_refs → r2 ∈ file_refs → r1 ≠ r2 →
         is_color_path (path (σ r1)) = false →
         is_color_path (path (σ r2)) = false →
         path (σ' r1) ≠ path (σ' r2))
    ∧ (∀ k1 k2 v1 v2, k1 ≠ k2 →
         path_map !! k1 = None → path_map !! k2 = None →
         path_map' !! k1 = Some v1 → path_map' !! k2 = Some v2 →
         v1 ≠ v2).
Proof.
  intros file_refs Hwf. unfold HandleShortenFilePaths. fold file_refs.
  pose proof (collect_file_refs_NoDup σ table Hwf) as Hnd. fold file_refs in Hnd.
  destruct (for_each_invariant (shorten_file_ref (num_chars_of file_refs))
    (λ done st,
       (∀ k v, path_map !! k = None → st_shortened_path_map st !! k = Some v →
          v ∈ shortened_paths st)
       ∧ (∀ k1 k2 v1 v2, k1 ≠ k2 →
            path_map !! k1 = None → path_map !! k2 = None →
            st_shortened_path_map st !! k1 = Some v1 →
            st_shortened_path_map st !! k2 = Some v2 → v1 ≠ v2)
       ∧ (∀ r, r ∈ done → is_color_path (path (σ r)) = false →
            path (st_store st r) ∈ shortened_paths st)
       ∧ (∀ r1 r2, r1 ∈ done → r2 ∈ done → r1 ≠ r2 →
            is_color_path (path (σ r1)) = false →
            is_color_path (path (σ r2)) = false →
            path (st_store st r1) ≠ path (st_store st r2))
       ∧ (∀ r, r ∉ done → st_store st r = σ r))
    file_refs
    {| shortened_paths := ∅; st_shortened_path_map := path_map; st_store := σ |})
    as (st' & Hrun & _ & Hvals & _ & Hrefs & _).
  - cbn. split; [intros; congruence|]. split; [intros; congruence|].
    split; [by intros r ?%elem_of_nil|]. split; [by intros r1 r2 ?%elem_of_nil|done].
  - intros done x rest st Hl (Hin & Hvals & Hseen & Hrefs & Hrest).
    assert (Hx : x ∉ done).
    { rewrite Hl in Hnd. apply NoDup_app in Hnd as (_ & Hnd & _).
      intros Hxd. apply (Hnd x Hxd). by left. }
    destruct (shorten_file_ref_cases (num_chars_of file_refs) st x)
      as [[Hcol ->]|[Hcol (c & _ & Hout & _ & ->)]].
    + exists st. split; [done|]. rewrite Hrest in Hcol by done.
      split; [done|]. split; [done|]. split; [|split].
      * intros r [Hr| ->]%elem_of_snoc Hr'; [by apply Hseen|].
        congruence.
      * intros r1 r2 [Hr1| ->]%elem_of_snoc
          [Hr2| ->]%elem_of_snoc; try congruence.
        by apply Hrefs.
      * intros r Hr. apply Hrest. intros ?. apply Hr, elem_of_snoc. by left.
    + eexists. split; [done|]. cbn.
      set (new := GetShortenedPath _ _ c) in *.
      assert (Hold : ∀ r, r ∈ done → st_store (st) r = (<[x:={| path := new |}]> (st_store st)) r).
      { intros r Hr. rewrite fn_lookup_insert_ne; [done|]. by intros <-. }
      split; [|split; [|split; [|split]]].
      * intros k v Hk [Hv|(_ & <- & _)]%map_insert_lookup_inv.
        -- apply elem_of_union. right. exact (Hin _ _ Hk Hv).
        -- apply elem_of_union. left. by apply elem_of_singleton.
      * intros k1 k2 v1 v2 Hne Hk1 Hk2
          [Hv1|(<- & <- & _)]%map_insert_lookup_inv
          [Hv2|(<- & <- & _)]%map_insert_lookup_inv.
        -- by eapply Hvals.
        -- intros ->. apply Hout. exact (Hin _ _ Hk1 Hv1).
        -- intros <-. apply Hout. exact (Hin _ _ Hk2 Hv2).
        -- done.
      * intros r [Hr| ->]%elem_of_snoc Hr'.
        -- rewrite <- Hold by done. apply elem_of_union. right. by apply Hseen.
        -- rewrite fn_lookup_insert. cbn. apply elem_of_union. left.
           by apply elem_of_singleton.
      * intros r1 r2 [Hr1| ->]%elem_of_snoc
          [Hr2| ->]%elem_of_snoc Hne Hc1 Hc2.
        -- rewrite <- !Hold by done. by apply Hrefs.
        -- rewrite <- Hold by done. rewrite fn_lookup_insert. cbn.
           intros Heq. apply Hout. rewrite <- Heq. by apply Hseen.
        -- rewrite <- (Hold r2) by done. rewrite fn_lookup_insert. cbn.
           intros Heq. apply Hout. rewrite Heq. by apply Hseen.
        -- done.
      * intros r Hr. rewrite fn_lookup_insert_ne.
        -- apply Hrest. intros ?. apply Hr, elem_of_snoc. by left.
        -- intros <-. apply Hr, elem_of_snoc. by right.
  - exists (st_shortened_path_map st'), (st_store st'). by rewrite Hrun.
Qed.

Lemma ShortenFileName_length (file_path : string) (num_chars : Z) :
  String.length (ShortenFileName file_path num_chars) = Z.to_nat num_chars.
Proof. unfold ShortenFileName. by rewrite ShortenFileName_loop_length. Qed.

Lemma key_count_snoc (num_chars : Z) (σ : store) (key : string * string)
    (l : list addr) (x : addr) :
  key_count num_chars σ key (l ++ [x])
  = (key_count num_chars σ key l
     + if decide (file_key num_chars (path (σ x)) = Some key) then 1 else 0)%nat.
Proof.
  unfold key_count. rewrite filter_app, length_app. f_equal.
  rewrite filter_cons, filter_nil. by destruct (decide _).
Qed.

Lemma key_count_pos (num_chars : Z) (σ : store) (key : string * string)
    (l : list addr) :
  (0 < key_count num_chars σ key l)%nat →
  ∃ r, r ∈ l ∧ file_key num_chars (path (σ r)) = Some key.
Proof.
  unfold key_count. intros Hpos.
  destruct (filter _ l) as [|r l'] eqn:Hf; [cbn in Hpos; lia|].
  assert (Hr : r ∈ filter (λ r, file_key num_chars (path (σ r)) = Some key) l)
    by (rewrite Hf; by left).
  apply list_elem_of_filter in Hr as [? ?]. by exists r.
Qed.

Lemma file_key_Some (num_chars : Z) (file_path : string) (key : string * string) :
  file_key num_chars file_path = Some key ↔
  is_color_path file_path = false
  ∧ key = (ShortenFileName file_path num_chars, extension_of file_path).
Proof.
  unfold file_key. destruct (is_color_path file_path).
  - split; [done|by intros [? _]].
  - split; [by intros [= <-]|by intros [_ ->]].
Qed.

(** The loop returns on every table, and the map keeps what it held. *)
Lemma HandleShortenFilePaths_returns (table : ResourceTable.t addr) (σ : store)
    (path_map : gmap string string) :
  ∃ path_map' σ',
    HandleShortenFilePaths table σ path_map = Some (true, path_map', σ')
    ∧ (∀ k v, path_map !! k = Some v → path_map' !! k = Some v).
Proof.
  unfold HandleShortenFilePaths.
  set (file_refs := collect_file_refs σ table).
  destruct (for_each_invariant (shorten_file_ref (num_chars_of file_refs))
    (λ _ st, ∀ k v, path_map !! k = Some v → st_shortened_path_map st !! k = Some v)
    file_refs
    {| shortened_paths := ∅; st_shortened_path_map := path_map; st_store := σ |})
    as (st' & Hrun & Hold).
  - done.
  - intros done x rest st _ Hold.
    destruct (shorten_file_ref_cases (num_chars_of file_refs) st x)
      as [[_ ->]|[_ (c & _ & _ & _ & ->)]]; [by exists st|].
    eexists. split; [done|]. cbn. intros k v Hk. by apply map_insert_lookup_Some, Hold.
  - exists (st_shortened_path_map st'), (st_store st'). by rewrite Hrun.
Qed.

(** The state that the loop of [HandleShortenFilePaths] reaches on a table
    whose values each own their file reference. *)
Lemma HandleShortenFilePaths_run (table : ResourceTable.t addr) (σ : store)
    (path_map : gmap string string) :
  let file_refs := collect_file_refs σ table in
  let num_chars := num_chars_of file_refs in
  table_wf table →
  ∃ path_map' σ',
    HandleShortenFilePaths table σ path_map = Some (true, path_map', σ')
    ∧ (∀ r, r ∉ file_refs → σ' r = σ r)
    ∧ (∀ r, r ∈ file_refs → is_color_path (path (σ r)) = true → σ' r = σ r)
    ∧ (∀ r, r ∈ file_refs → is_color_path (path (σ r)) = false →
         ∃ c, 0 ≤ c ∧ (Z.to_nat c < length file_refs)%nat
              ∧ path (σ' r)
                = GetShortenedPath (ShortenFileName (path (σ r)) num_chars)
                    (extension_of (path (σ r))) c)
    ∧ (∀ done r rest, file_refs = done ++ r :: rest →
         is_color_path (path (σ r)) = false →
         path_map !! path (σ r) = None →
         path (σ r) ∉ (λ r, path (σ r)) <$> done →
         path_map' !! path (σ r) = Some (path (σ' r)))
    ∧ (∀ k v, path_map' !! k = Some v →
         path_map !! k = Some v
         ∨ ∃ r, r ∈ file_refs ∧ is_color_path (path (σ r)) = false
                ∧ k = path (σ r) ∧ v = path (σ' r))
    ∧ (∀ k v, path_map !! k = Some v → path_map' !! k = Some v).
Proof.
  intros file_refs num_chars Hwf. unfold HandleShortenFilePaths.
  fold file_refs. fold num_chars.
  pose proof (collect_file_refs_NoDup σ table Hwf) as Hnd. fold file_refs in Hnd.
  destruct (for_each_invariant (shorten_file_ref num_chars)
    (λ done st,
       (∀ r, r ∉ done → st_store st r = σ r)
       ∧ (∀ r, r ∈ done → is_color_path (path (σ r)) = true → st_store st r = σ r)
       ∧ (∀ r, r ∈ done → is_color_path (path (σ r)) = false →
            ∃ c, 0 ≤ c ∧ (Z.to_nat c < length done)%nat
                 ∧ path (st_store st r)
                   = GetShortenedPath (ShortenFileName (path (σ r)) num_chars)
                       (extension_of (path (σ r))) c)
       ∧ (∀ done1 r done2, done = done1 ++ r :: done2 →
            is_color_path (path (σ r)) = false →
            path_map !! path (σ r) = None →
            path (σ r) ∉ (λ r, path (σ r)) <$> done1 →
            st_shortened_path_map st !! path (σ r) = Some (path (st_store st r)))
       ∧ (∀ k v, st_shortened_path_map st !! k = Some v →
            path_map !! k = Some v
            ∨ ∃ r, r ∈ done ∧ is_color_path (path (σ r)) = false
                   ∧ k = path (σ r) ∧ v = path (st_store st r))
       ∧ (∀ k v, path_map !! k = Some v → st_shortened_path_map st !! k = Some v)
       ∧ (size (shortened_paths st) ≤ length done)%nat)
    file_refs
    {| shortened_paths := ∅; st_shortened_path_map := path_map; st_store := σ |})
    as (st' & Hrun & H1 & H2 & H3 & H4 & H5 & H6 & _).
  - cbn. split; [done|]. split; [done|]. split; [by intros r ?%elem_of_nil|].
    split; [intros done1 r done2 Heq; by destruct done1|]. split; [by left|].
    split; [done|]. by rewrite size_empty.
  - intros done x rest st Hl (J1 & J2 & J3 & J4 & J5 & J6 & J7).
    assert (Hx : x ∉ done).
    { rewrite Hl in Hnd. apply NoDup_app in Hnd as (_ & Hnd & _).
      intros Hxd. apply (Hnd x Hxd). by left. }
    pose proof (shorten_file_ref_cases num_chars st x) as Hcases.
    cbn zeta in Hcases. rewrite (J1 x Hx) in Hcases.
    destruct Hcases as [[Hcol ->]|[Hcol (c & Hc0 & Hout & Hbelow & ->)]].
    + exists st. split; [done|]. split; [|split; [|split; [|split; [|split; [|split]]]]].
      * intros r Hr. apply J1. intros ?. apply Hr, elem_of_snoc. by left.
      * intros r [Hr| ->]%elem_of_snoc Hr'; [by apply J2|by apply J1].
      * intros r [Hr| ->]%elem_of_snoc Hr'; [|congruence].
        destruct (J3 r Hr Hr') as (c & ? & ? & ?). exists c.
        rewrite length_app. cbn. split; [done|]. split; [lia|done].
      * intros done1 r done2 [(-> & -> & ->)|(done2' & -> & ->)]%snoc_eq_middle Hr';
          [congruence|by eapply J4].
      * intros k v [Hk|(r & Hr & ? & ? & ?)]%J5; [by left|right].
        exists r. split; [|done]. apply elem_of_snoc. by left.
      * done.
      * rewrite length_app. cbn. lia.
    + set (new := GetShortenedPath _ _ c) in *.
      pose proof (collision_count_bound _ _ _ c Hc0 Hbelow) as Hbound.
      eexists. split; [done|]. cbn.
      split; [|split; [|split; [|split; [|split; [|split]]]]].
      * intros r Hr. rewrite fn_lookup_insert_ne.
        -- apply J1. intros ?. apply Hr, elem_of_snoc. by left.
        -- intros <-. apply Hr, elem_of_snoc. by right.
      * intros r [Hr| ->]%elem_of_snoc Hr'; [|congruence].
        rewrite fn_lookup_insert_ne; [by apply J2|]. by intros <-.
      * intros r [Hr| ->]%elem_of_snoc Hr'.
        -- rewrite fn_lookup_insert_ne by (by intros <-).
           destruct (J3 r Hr Hr') as (c' & ? & ? & ?). exists c'.
           rewrite length_app. cbn. split; [done|]. split; [lia|done].
        -- rewrite fn_lookup_insert. exists c. rewrite length_app. cbn.
           split; [done|]. split; [lia|done].
      * intros done1 r done2 [(-> & -> & ->)|(done2' & -> & ->)]%snoc_eq_middle
          Hr' Hnone Hfirst.
        -- rewrite fn_lookup_insert. cbn. apply map_insert_lookup_fresh.
           destruct (st_shortened_path_map st !! path (σ x)) as [v|] eqn:Hv; [|done].
           apply J5 in Hv as [Hv|(r & Hr & _ & Heq & _)]; [congruence|].
           destruct Hfirst. rewrite Heq. apply list_elem_of_fmap. by exists r.
        -- rewrite fn_lookup_insert_ne.
           ++ apply map_insert_lookup_Some. by eapply J4.
           ++ intros <-. apply Hx, elem_of_app. right. by left.
      * intros k v [Hk|(<- & <- & _)]%map_insert_lookup_inv.
        -- apply J5 in Hk as [Hk|(r & Hr & ? & ? & ?)]; [by left|right].
           exists r. split; [apply elem_of_snoc; by left|].
           rewrite fn_lookup_insert_ne by (by intros <-). done.
        -- right. exists x. split; [apply elem_of_snoc; by right|].
           by rewrite fn_lookup_insert.
      * intros k v Hk. by apply map_insert_lookup_Some, J6.
      * rewrite size_union, size_singleton, length_app by set_solver. cbn. lia.
  - exists (st_shortened_path_map st'), (st_store st'). by rewrite Hrun.
Qed.

End shortening.

(** The extension that the modelled splitter yields is empty or begins with a
    dot, so it never begins with a digit. *)
Lemma split_first_dot_extension (s : string) :
  no_leading_digit (split_first_dot s).2 = true.
Proof.
  induction s as [|c s IH]; [done|]. cbn [split_first_dot].
  destruct (decide (c = "."%char)) as [->|Hc]; [done|].
  by destruct (split_first_dot s).
Qed.

Lemma split_res_path_extension (file_path : string) :
  no_leading_digit (split_res_path file_path).2 = true.
Proof.
  unfold split_res_path. destruct (split_last_slash file_path) as [[dir file]|]; [|done].
  pose proof (split_first_dot_extension file) as Hext.
  by destruct (split_first_dot file).
Qed.

Section collision_suffixes.
Context `{Platform}.

(** C4: on a table whose values each own their file reference, and
    provided no extension of the table begins with a decimal digit, the pass
    returns and every file reference that the loop shortens ends with the
    path [res/] + alias + suffix + extension, where the suffix is empty for
    the first reference of its alias and extension and the decimal number
    [k] for the one that comes after [k] others with the same alias and
    extension in the order of the loop over the set [file_refs], among them
    the references of the set that have the very same path; this is
    [GetShortenedPath] at the count [k].  It is the value recorded for the
    original path when the reference is the first of the loop with that
    path. *)
Theorem collision_suffix_in_processing_order (table : ResourceTable.t addr)
    (σ : store) (path_map : gmap string string) :
  let file_refs := collect_file_refs σ table in
  let num_chars := num_chars_of file_refs in
  table_wf table →
  (∀ r, r ∈ file_refs → no_leading_digit (extension_of (path (σ r))) = true) →
  ∃ path_map' σ',
    HandleShortenFilePaths table σ path_map = Some (true, path_map', σ')
    ∧ ∀ done r rest, file_refs = done ++ r :: rest →
        is_color_path (path (σ r)) = false →
        let alias := ShortenFileName (path (σ r)) num_chars in
        let extension := extension_of (path (σ r)) in
        let k := key_count num_chars σ (alias, extension) done in
        path (σ' r) = GetShortenedPath alias extension (Z.of_nat k)
        ∧ path (σ' r) = "res/" +:+ alias +:+ collision_suffix k +:+ extension
        ∧ (path_map !! path (σ r) = None →
           path (σ r) ∉ (λ r, path (σ r)) <$> done →
           path_map' !! path (σ r) = Some (path (σ' r))).
Proof.
  intros file_refs num_chars Hwf Hext. unfold HandleShortenFilePaths.
  fold file_refs. fold num_chars.
  pose proof (collect_file_refs_NoDup σ table Hwf) as Hnd. fold file_refs in Hnd.
  destruct (for_each_invariant (shorten_file_ref num_chars)
    (λ done st,
       (∀ s, s ∈ shortened_paths st ↔
          ∃ a e (c : nat), (c < key_count num_chars σ (a, e) done)%nat
                           ∧ s = GetShortenedPath a e (Z.of_nat c))
       ∧ (∀ done1 r done2, done = done1 ++ r :: done2 →
            ∀ a e, file_key num_chars (path (σ r)) = Some (a, e) →
            path (st_store st r)
            = GetShortenedPath a e (Z.of_nat (key_count num_chars σ (a, e) done1)))
       ∧ (∀ r, r ∉ done → st_store st r = σ r)
       ∧ (∀ done1 r done2, done = done1 ++ r :: done2 →
            is_color_path (path (σ r)) = false →
            path_map !! path (σ r) = None →
            path (σ r) ∉ (λ r, path (σ r)) <$> done1 →
            st_shortened_path_map st !! path (σ r) = Some (path (st_store st r)))
       ∧ (∀ p, p ∉ (λ r, path (σ r)) <$> done →
            st_shortened_path_map st !! p = path_map !! p))
    file_refs
    {| shortened_paths := ∅; st_shortened_path_map := path_map; st_store := σ |})
    as (st' & Hrun & _ & Hb & _ & Hd & _).
  - cbn. split; [|split; [|split; [|split]]]; try done.
    + intros s. split; [by intros ?%elem_of_empty|].
      intros (a & e & c & Hlt & _). cbn in Hlt. lia.
    + intros done1 r done2 Heq. by destruct done1.
    + intros done1 r done2 Heq. by destruct done1.
  - intros done x rest st Hl (Ha & Hb & Hc & Hd & He).
    assert (Hx : x ∉ done).
    { rewrite Hl in Hnd. apply NoDup_app in Hnd as (_ & Hnd & _).
      intros Hxd. apply (Hnd x Hxd). by left. }
    assert (Hsub : ∀ r, r ∈ done → r ∈ file_refs).
    { intros r Hr. rewrite Hl. apply elem_of_app. by left. }
    assert (Hxin : x ∈ file_refs).
    { rewrite Hl. apply elem_of_app. right. by left. }
    pose proof (shorten_file_ref_cases num_chars st x) as Hcases.
    cbn zeta in Hcases. rewrite (Hc x Hx) in Hcases.
    destruct Hcases as [[Hcol ->]|[Hcol (c & Hc0 & Hout & Hbelow & ->)]].
    + exists st. split; [done|].
      assert (Hcnt : ∀ key, key_count num_chars σ key (done ++ [x])
                            = key_count num_chars σ key done).
      { intros key. rewrite key_count_snoc, decide_False; [lia|].
        unfold file_key. by rewrite Hcol. }
      split; [|split; [|split; [|split]]].
      * intros s. rewrite Ha. split; intros (a & e & c & Hlt & ->);
          exists a, e, c; [by rewrite Hcnt|by rewrite <- Hcnt].
      * intros done1 r done2 [(-> & -> & ->)|(done2' & -> & ->)]%snoc_eq_middle a e Hkey.
        -- unfold file_key in Hkey. by rewrite Hcol in Hkey.
        -- by eapply Hb.
      * intros r Hr. apply Hc. intros ?. apply Hr, elem_of_snoc. by left.
      * intros done1 r done2 [(-> & -> & ->)|(done2' & -> & ->)]%snoc_eq_middle Hr';
          [congruence|by eapply Hd].
      * intros p Hp. apply He. intros Hp'. apply Hp.
        rewrite fmap_app. apply elem_of_app. by left.
    + set (a := ShortenFileName (path (σ x)) num_chars) in *.
      set (e := extension_of (path (σ x))) in *.
      set (k := key_count num_chars σ (a, e) done).
      assert (Hkey : file_key num_chars (path (σ x)) = Some (a, e)).
      { unfold file_key. by rewrite Hcol. }
      assert (Hk_out : GetShortenedPath a e (Z.of_nat k) ∉ shortened_paths st).
      { intros (a' & e' & c' & Hlt & Heq)%Ha.
        destruct (key_count_pos num_chars σ (a', e') done) as (r' & Hr' & Hkey'); [lia|].
        apply file_key_Some in Hkey' as [_ Hkey'].
        injection Hkey' as Ha' He'.
        apply GetShortenedPath_inj in Heq as (Haa & Hee & Hcc); try lia.
        * rewrite <- Haa, <- Hee in Hlt. fold k in Hlt. lia.
        * rewrite Ha'. unfold a. by rewrite !ShortenFileName_length.
        * by apply Hext.
        * rewrite He'. by apply Hext, Hsub. }
      assert (Hk_below : ∀ c', 0 ≤ c' < Z.of_nat k →
                GetShortenedPath a e c' ∈ shortened_paths st).
      { intros c' Hc'. apply Ha. exists a, e, (Z.to_nat c').
        split; [fold k; lia|]. by rewrite Z2Nat.id by lia. }
      assert (c = Z.of_nat k) as ->.
      { destruct (Z.lt_trichotomy c (Z.of_nat k)) as [Hlt|[Heq|Hgt]]; [|done|].
        - destruct Hout. apply Hk_below. lia.
        - destruct Hk_out. apply Hbelow. lia. }
      eexists. split; [done|]. cbn.
      split; [|split; [|split; [|split]]].
      * intros s. rewrite elem_of_union, elem_of_singleton. split.
        -- intros [->|(a' & e' & c' & Hlt & ->)%Ha].
           ++ exists a, e, k. split; [|done].
              rewrite key_count_snoc, decide_True by done. fold k. lia.
           ++ exists a', e', c'. split; [|done]. rewrite key_count_snoc. lia.
        -- intros (a' & e' & c' & Hlt & ->). rewrite key_count_snoc in Hlt.
           destruct (decide (file_key num_chars (path (σ x)) = Some (a', e')))
             as [Hkey'|Hkey'].
           ++ rewrite Hkey in Hkey'. injection Hkey' as <- <-. fold k in Hlt.
              destruct (decide (c' = k)) as [->|Hne]; [by left|].
              right. apply Ha. exists a, e, c'. split; [fold k; lia|done].
           ++ right. apply Ha. exists a', e', c'. split; [lia|done].
      * intros done1 r done2 [(-> & -> & ->)|(done2' & -> & ->)]%snoc_eq_middle a' e' Hkey'.
        -- rewrite Hkey in Hkey'. injection Hkey' as <- <-.
           by rewrite fn_lookup_insert.
        -- rewrite fn_lookup_insert_ne; [by eapply Hb|].
           intros <-. apply Hx, elem_of_app. right. by left.
      * intros r Hr. rewrite fn_lookup_insert_ne.
        -- apply Hc. intros ?. apply Hr, elem_of_snoc. by left.
        -- intros <-. apply Hr, elem_of_snoc. by right.
      * intros done1 r done2 [(-> & -> & ->)|(done2' & -> & ->)]%snoc_eq_middle
          Hr' Hnone Hfirst.
        -- rewrite fn_lookup_insert. cbn. apply map_insert_lookup_fresh.
           by rewrite He.
        -- rewrite fn_lookup_insert_ne.
           ++ apply map_insert_lookup_Some. by eapply Hd.
           ++ intros <-. apply Hx, elem_of_app. right. by left.
      * intros p Hp. rewrite map_insert_lookup_ne.
        -- apply He. intros Hp'. apply Hp. rewrite fmap_app. apply elem_of_app. by left.
        -- intros <-. apply Hp. rewrite fmap_app. apply elem_of_app. right. by left.
  - exists (st_shortened_path_map st'), (st_store st'). rewrite Hrun. split; [done|].
    intros done r rest Hl Hcol. cbn zeta.
    assert (Hkey : file_key num_chars (path (σ r))
                   = Some (ShortenFileName (path (σ r)) num_chars,
                           extension_of (path (σ r)))).
    { unfold file_key. by rewrite Hcol. }
    pose proof (Hb done r rest Hl _ _ Hkey) as Hpath.
    split; [done|]. split.
    + by rewrite Hpath, GetShortenedPath_shape, count_suffix_of_nat.
    + intros Hnone Hfirst. by eapply Hd.
Qed.
End collision_suffixes.

(** ** Two runs on the same contents *)

Lemma fmap_bind_comm {X A B} (f : A → B) (g : X → list A) (l : list X) :
  f <$> (l ≫= g) = l ≫= (λ x, f <$> g x).
Proof.
  induction l as [|x l IH]; [done|]. by rewrite !bind_cons, fmap_app, IH.
Qed.

Lemma table_file_refs_map {A B} (f : A → B) (table : ResourceTable.t A) :
  table_file_refs (table_map f table) = f <$> table_file_refs table.
Proof.
  unfold table_file_refs, table_map. cbn.
  rewrite list_fmap_bind, fmap_bind_comm. apply list_bind_ext; [|done].
  intros package. unfold package_refs. cbn.
  rewrite list_fmap_bind, fmap_bind_comm. apply list_bind_ext; [|done].
  intros type. unfold type_refs. cbn.
  rewrite list_fmap_bind, fmap_bind_comm. apply list_bind_ext; [|done].
  intros entry. unfold entry_refs. cbn.
  rewrite list_fmap_bind, fmap_bind_comm. apply list_bind_ext; [|done].
  intros c. unfold config_value_refs. cbn.
  by destruct (ResourceConfigValue.value c).
Qed.

Lemma obfuscated_records_map {A B} (f : A → B) (collapse : bool)
    (exemptions : gset ResourceName.t) (table : ResourceTable.t A) :
  obfuscated_records collapse exemptions (table_map f table)
  = obfuscated_records collapse exemptions table.
Proof.
  unfold obfuscated_records, table_entries, table_map. cbn.
  rewrite !list_bind_bind, list_fmap_bind. apply list_bind_ext; [|done].
  intros package. cbn.
  rewrite !list_bind_bind, list_fmap_bind. apply list_bind_ext; [|done].
  intros type. cbn.
  rewrite !list_bind_bind, list_fmap_bind. apply list_bind_ext; [|done].
  intros entry. cbn. by rewrite !app_nil_r.
Qed.

(** The name collapsing does not look at the file references. *)
Lemma HandleCollapseKeyStringPool_map {A B} (f : A → B) (table : ResourceTable.t A)
    (collapse : bool) (exemptions : gset ResourceName.t) (m : gmap Z string) :
  HandleCollapseKeyStringPool (table_map f table) collapse exemptions m
  = HandleCollapseKeyStringPool table collapse exemptions m.
Proof. by rewrite !HandleCollapseKeyStringPool_record_all, obfuscated_records_map. Qed.

(** The rebalancing looks at the colours and the shape only, and the descent
    at what the comparator answers: the set of the images of the keys, under
    a comparator that answers on the images as the first one on the keys, is
    the image of the set. *)
Lemma is_red_tree_map {A B} (f : A → B) (t : tree A) :
  is_red (tree_map f t) = is_red t.
Proof. by destruct t as [|[] ? ? ?]. Qed.

Lemma tree_map_blacken {A B} (f : A → B) (t : tree A) :
  tree_map f (blacken t) = blacken (tree_map f t).
Proof. by destruct t. Qed.

Lemma tree_map_balance_left {A B} (f : A → B) (b : bool) (l : tree A) (v : A)
    (r : tree A) :
  tree_map f (balance_left b l v r)
  = balance_left b (tree_map f l) (f v) (tree_map f r).
Proof.
  destruct l as [|[] ll lv lr]; [done..|].
  cbn [tree_map]. unfold balance_left. rewrite !is_red_tree_map.
  destruct (is_red ll), (is_red lr), (is_red r), lr; cbn; by rewrite ?tree_map_blacken.
Qed.

Lemma tree_map_balance_right {A B} (f : A → B) (b : bool) (l : tree A) (v : A)
    (r : tree A) :
  tree_map f (balance_right b l v r)
  = balance_right b (tree_map f l) (f v) (tree_map f r).
Proof.
  destruct r as [|[] rl rv rr]; [done..|].
  cbn [tree_map]. unfold balance_right. rewrite !is_red_tree_map.
  destruct (is_red rl), (is_red rr), (is_red l), rl; cbn; by rewrite ?tree_map_blacken.
Qed.

Lemma insert_node_tree_map {A B} (f : A → B) (comp : A → A → bool)
    (comp' : B → B → bool) (k : A) (t : tree A) :
  (∀ a, a ∈ elements t →
     comp' (f k) (f a) = comp k a ∧ comp' (f a) (f k) = comp a k) →
  insert_node comp' (f k) (tree_map f t) = tree_map f <$> insert_node comp k t.
Proof.
  induction t as [|b l IHl v r IHr]; intros Hcomp; [done|].
  cbn [tree_map insert_node elements] in *.
  destruct (Hcomp v) as [-> ->]; [apply elem_of_app; right; by left|].
  rewrite IHl by (intros a Ha; apply Hcomp, elem_of_app; by left).
  rewrite IHr by (intros a Ha; apply Hcomp, elem_of_app; right; by right).
  destruct (comp k v).
  - destruct (insert_node comp k l); [|done]. cbn.
    by rewrite tree_map_balance_left.
  - destruct (comp v k); [|done].
    destruct (insert_node comp k r); [|done]. cbn.
    by rewrite tree_map_balance_right.
Qed.

Lemma set_insert_tree_map {A B} (f : A → B) (comp : A → A → bool)
    (comp' : B → B → bool) (k : A) (t : tree A) :
  (∀ a, a ∈ elements t →
     comp' (f k) (f a) = comp k a ∧ comp' (f a) (f k) = comp a k) →
  set_insert comp' (f k) (tree_map f t) = tree_map f (set_insert comp k t).
Proof.
  intros Hcomp. unfold set_insert. rewrite (insert_node_tree_map f comp comp') by done.
  destruct (insert_node comp k t); [|done]. cbn. by rewrite tree_map_blacken.
Qed.

Lemma foldl_set_insert_tree_map {A B} (f : A → B) (comp : A → A → bool)
    (comp' : B → B → bool) (l : list A) (t : tree A) :
  (∀ a b, a ∈ elements t ++ l → b ∈ elements t ++ l →
     comp' (f a) (f b) = comp a b) →
  foldl (λ s k, set_insert comp' k s) (tree_map f t) (f <$> l)
  = tree_map f (foldl (λ s k, set_insert comp k s) t l).
Proof.
  revert t. induction l as [|k l IH]; intros t Hcomp; [done|].
  rewrite fmap_cons. cbn [foldl].
  rewrite (set_insert_tree_map f comp comp').
  - apply IH. intros a b Ha Hb.
    apply Hcomp; rewrite elem_of_app, elem_of_cons.
    + apply elem_of_app in Ha as [[->|Ha]%elem_of_set_insert|Ha]; tauto.
    + apply elem_of_app in Hb as [[->|Hb]%elem_of_set_insert|Hb]; tauto.
  - intros a Ha. split; apply Hcomp; rewrite elem_of_app, elem_of_cons; tauto.
Qed.

Lemma elem_of_zip_Forall2 {A B} (P : A → B → Prop) (l1 : list A) (l2 : list B)
    (x : A * B) :
  Forall2 P l1 l2 → x ∈ zip l1 l2 → P x.1 x.2.
Proof.
  induction 1 as [|a b l1 l2 Hab Hl IH]; cbn; [by intros ?%elem_of_nil|].
  intros [->|Hx]%elem_of_cons; [done|by apply IH].
Qed.

(** The sets built from two sequences of references that agree on the paths,
    position by position, have the same shape and agree in the same way:
    both are images of the set of the pairs of corresponding references. *)
Lemma collect_related (P : addr → addr → Prop) (σ1 σ2 : store) (l1 l2 : list addr) :
  (∀ p q, P p q → path (σ1 p) = path (σ2 q)) →
  Forall2 P l1 l2 →
  Forall2 P
    (elements (foldl (λ file_refs file_ref,
                        set_insert (PathComparator σ1) file_ref file_refs) Leaf l1))
    (elements (foldl (λ file_refs file_ref,
                        set_insert (PathComparator σ2) file_ref file_refs) Leaf l2)).
Proof.
  intros HP Hl.
  set (comp := λ x y : addr * addr, PathComparator σ1 x.1 y.1).
  set (pairs := foldl (λ s k, set_insert comp k s) Leaf (zip l1 l2)).
  assert (H1 : foldl (λ file_refs file_ref,
                        set_insert (PathComparator σ1) file_ref file_refs) Leaf l1
               = tree_map fst pairs).
  { rewrite <- (fst_zip l1 l2) at 1 by (by rewrite (Forall2_length _ _ _ Hl)).
    by apply (foldl_set_insert_tree_map fst comp (PathComparator σ1) _ Leaf). }
  assert (H2 : foldl (λ file_refs file_ref,
                        set_insert (PathComparator σ2) file_ref file_refs) Leaf l2
               = tree_map snd pairs).
  { rewrite <- (snd_zip l1 l2) at 1 by (by rewrite (Forall2_length _ _ _ Hl)).
    apply (foldl_set_insert_tree_map snd comp (PathComparator σ2) _ Leaf).
    intros a b Ha Hb. cbn [elements app] in Ha, Hb.
    unfold comp, PathComparator.
    by rewrite (HP _ _ (elem_of_zip_Forall2 P l1 l2 a Hl Ha)),
               (HP _ _ (elem_of_zip_Forall2 P l1 l2 b Hl Hb)). }
  rewrite H1, H2, !elements_tree_map. apply Forall2_fmap, Forall_Forall2_diag.
  apply Forall_forall. intros x Hx. apply (elem_of_zip_Forall2 P l1 l2 x Hl).
  by apply elem_of_foldl_set_insert in Hx as [?%elem_of_nil|?].
Qed.

Lemma Forall2_fmap_eq {A1 A2 B} (f : A1 → B) (g : A2 → B)
    (l1 : list A1) (l2 : list A2) :
  f <$> l1 = g <$> l2 → Forall2 (λ p q, f p = g q) l1 l2.
Proof.
  revert l2. induction l1 as [|x l1 IH]; intros [|y l2] Heq; try discriminate.
  - constructor.
  - rewrite !fmap_cons in Heq. injection Heq as Hxy Hl. constructor; [done|by apply IH].
Qed.

(** Tables of the same shape whose references correspond one to one. *)
Section related_tables.
Context {A1 A2 B C : Type} (P : A1 → A2 → Prop).
Context (f1 : A1 → B) (f2 : A2 → B) (g1 : A1 → C) (g2 : A2 → C).
Hypothesis HP : ∀ p q, P p q → g1 p = g2 q.

Lemma bind_length_related {X1 X2 Y} (mf1 : X1 → Y) (mf2 : X2 → Y)
    (refs1 : X1 → list A1) (refs2 : X2 → list A2) (l1 : list X1) (l2 : list X2) :
  (∀ x1 x2, mf1 x1 = mf2 x2 → length (refs1 x1) = length (refs2 x2)) →
  mf1 <$> l1 = mf2 <$> l2 →
  length (l1 ≫= refs1) = length (l2 ≫= refs2).
Proof.
  intros Hlen. revert l2. induction l1 as [|x1 l1 IH]; intros [|x2 l2] Heq;
    try discriminate; [done|].
  rewrite !fmap_cons in Heq. injection Heq as Hx Hl.
  rewrite !bind_cons, !length_app. f_equal; [by apply Hlen|by apply IH].
Qed.

Lemma fmap_related {X1 X2 Y Y'} (mf1 : X1 → Y) (mf2 : X2 → Y)
    (mg1 : X1 → Y') (mg2 : X2 → Y')
    (refs1 : X1 → list A1) (refs2 : X2 → list A2) (l1 : list X1) (l2 : list X2) :
  (∀ x1 x2, mf1 x1 = mf2 x2 → length (refs1 x1) = length (refs2 x2)) →
  (∀ x1 x2, mf1 x1 = mf2 x2 → Forall2 P (refs1 x1) (refs2 x2) → mg1 x1 = mg2 x2) →
  mf1 <$> l1 = mf2 <$> l2 →
  Forall2 P (l1 ≫= refs1) (l2 ≫= refs2) →
  mg1 <$> l1 = mg2 <$> l2.
Proof.
  intros Hlen Hmap. revert l2. induction l1 as [|x1 l1 IH]; intros [|x2 l2] Heq Hrefs;
    try discriminate; [done|].
  rewrite !fmap_cons in Heq. injection Heq as Hx Hl.
  rewrite !bind_cons in Hrefs.
  apply Forall2_app_inv in Hrefs as [Hrefs_x Hrefs_l]; [|by apply Hlen].
  rewrite !fmap_cons. f_equal; [by apply Hmap|by apply IH].
Qed.

Lemma config_value_refs_length (c1 : ResourceConfigValue.t A1)
    (c2 : ResourceConfigValue.t A2) :
  config_value_map f1 c1 = config_value_map f2 c2 →
  length (config_value_refs c1) = length (config_value_refs c2).
Proof.
  destruct c1 as [[r1|]], c2 as [[r2|]]; intros Heq; by try discriminate.
Qed.

Lemma config_value_map_related (c1 : ResourceConfigValue.t A1)
    (c2 : ResourceConfigValue.t A2) :
  config_value_map f1 c1 = config_value_map f2 c2 →
  Forall2 P (config_value_refs c1) (config_value_refs c2) →
  config_value_map g1 c1 = config_value_map g2 c2.
Proof.
  destruct c1 as [[r1|]], c2 as [[r2|]]; intros Heq Hrefs; try discriminate; [|done].
  unfold config_value_map. cbn. do 2 f_equal.
  apply HP. by apply Forall2_cons_1 in Hrefs as [? _].
Qed.

Lemma entry_refs_length (e1 : ResourceEntry.t A1) (e2 : ResourceEntry.t A2) :
  entry_map f1 e1 = entry_map f2 e2 →
  length (entry_refs e1) = length (entry_refs e2).
Proof.
  intros [= _ _ _ Hvalues].
  by eapply bind_length_related, Hvalues; apply config_value_refs_length.
Qed.

Lemma entry_map_related (e1 : ResourceEntry.t A1) (e2 : ResourceEntry.t A2) :
  entry_map f1 e1 = entry_map f2 e2 →
  Forall2 P (entry_refs e1) (entry_refs e2) →
  entry_map g1 e1 = entry_map g2 e2.
Proof.
  intros [= Hname Hid Hmarker Hvalues] Hrefs. unfold entry_map.
  rewrite Hname, Hid, Hmarker. f_equal.
  eapply fmap_related; [apply config_value_refs_length| |exact Hvalues|exact Hrefs].
  apply config_value_map_related.
Qed.

Lemma type_refs_length (t1 : ResourceTableType.t A1) (t2 : ResourceTableType.t A2) :
  type_map f1 t1 = type_map f2 t2 →
  length (type_refs t1) = length (type_refs t2).
Proof.
  intros [= _ Hentries].
  by eapply bind_length_related, Hentries; apply entry_refs_length.
Qed.

Lemma type_map_related (t1 : ResourceTableType.t A1) (t2 : ResourceTableType.t A2) :
  type_map f1 t1 = type_map f2 t2 →
  Forall2 P (type_refs t1) (type_refs t2) →
  type_map g1 t1 = type_map g2 t2.
Proof.
  intros [= Hname Hentries] Hrefs. unfold type_map. rewrite Hname. f_equal.
  eapply fmap_related; [apply entry_refs_length| |exact Hentries|exact Hrefs].
  apply entry_map_related.
Qed.

Lemma package_refs_length (p1 : ResourceTablePackage.t A1)
    (p2 : ResourceTablePackage.t A2) :
  package_map f1 p1 = package_map f2 p2 →
  length (package_refs p1) = length (package_refs p2).
Proof.
  intros [= _ Htypes].
  by eapply bind_length_related, Htypes; apply type_refs_length.
Qed.

Lemma package_map_related (p1 : ResourceTablePackage.t A1)
    (p2 : ResourceTablePackage.t A2) :
  package_map f1 p1 = package_map f2 p2 →
  Forall2 P (package_refs p1) (package_refs p2) →
  package_map g1 p1 = package_map g2 p2.
Proof.
  intros [= Hname Htypes] Hrefs. unfold package_map. rewrite Hname. f_equal.
  eapply fmap_related; [apply type_refs_length| |exact Htypes|exact Hrefs].
  apply type_map_related.
Qed.

(** Two tables that [f1] and [f2] make equal are made equal by [g1] and
    [g2] when these agree on the references at the same positions. *)
Lemma table_map_related (t1 : ResourceTable.t A1) (t2 : ResourceTable.t A2) :
  table_map f1 t1 = table_map f2 t2 →
  Forall2 P (table_file_refs t1) (table_file_refs t2) →
  table_map g1 t1 = table_map g2 t2.
Proof.
  intros [= Hpackages] Hrefs. unfold table_map. f_equal.
  eapply fmap_related; [apply package_refs_length| |exact Hpackages|exact Hrefs].
  apply package_map_related.
Qed.
End related_tables.

Section two_runs.
Context `{Platform}.

(** Two iterations that read the same path, with the same assigned paths
    and the same map, return, agree on the set and the map, and either
    both leave their store or both write the same new path. *)
Lemma shorten_file_ref_related (num_chars : Z) (st1 st2 : ShortenState)
    (x1 x2 : addr) :
  path (st_store st1 x1) = path (st_store st2 x2) →
  shortened_paths st1 = shortened_paths st2 →
  st_shortened_path_map st1 = st_shortened_path_map st2 →
  ∃ st1' st2',
    shorten_file_ref num_chars st1 x1 = Some st1'
    ∧ shorten_file_ref num_chars st2 x2 = Some st2'
    ∧ shortened_paths st1' = shortened_paths st2'
    ∧ st_shortened_path_map st1' = st_shortened_path_map st2'
    ∧ ((st_store st1' = st_store st1 ∧ st_store st2' = st_store st2)
       ∨ ∃ new, st_store st1' = <[x1 := {| path := new |}]> (st_store st1)
                ∧ st_store st2' = <[x2 := {| path := new |}]> (st_store st2)).
Proof.
  intros Hpath Hset Hmap.
  pose proof (shorten_file_ref_cases num_chars st1 x1) as H1.
  pose proof (shorten_file_ref_cases num_chars st2 x2) as H2.
  cbn zeta in H1, H2. rewrite <- Hpath, <- Hset, <- Hmap in H2.
  destruct H1 as [[Hcol1 ->]|[Hcol1 (c1 & Hc1 & Hout1 & Hbelow1 & ->)]];
    destruct H2 as [[Hcol2 ->]|[Hcol2 (c2 & Hc2 & Hout2 & Hbelow2 & ->)]];
    try congruence.
  - exists st1, st2. repeat (split; [done|]). by left.
  - assert (c1 = c2) as ->.
    { destruct (Z.lt_trichotomy c1 c2) as [Hlt|[Heq|Hgt]]; [|done|].
      - destruct Hout1. apply Hbelow2. lia.
      - destruct Hout2. apply Hbelow1. lia. }
    eexists _, _. split; [done|]. split; [done|]. cbn.
    split; [done|]. split; [done|]. right. by eexists.
Qed.

(** The loops of two runs over sequences of references that correspond
    one to one return and keep the stores in agreement on corresponding
    references. *)
Lemma for_each_related (num_chars : Z) (P : addr → addr → Prop)
    (refs1 refs2 : list addr) (st1 st2 : ShortenState) :
  (∀ p q p' q', P p q → P p' q' → (p = p' ↔ q = q')) →
  Forall2 P refs1 refs2 →
  shortened_paths st1 = shortened_paths st2 →
  st_shortened_path_map st1 = st_shortened_path_map st2 →
  (∀ p q, P p q → path (st_store st1 p) = path (st_store st2 q)) →
  ∃ st1' st2',
    for_each (shorten_file_ref num_chars) refs1 st1 = Some st1'
    ∧ for_each (shorten_file_ref num_chars) refs2 st2 = Some st2'
    ∧ st_shortened_path_map st1' = st_shortened_path_map st2'
    ∧ (∀ p q, P p q → path (st_store st1' p) = path (st_store st2' q)).
Proof.
  intros HP Hrefs. revert st1 st2.
  induction Hrefs as [|x1 x2 refs1 refs2 Hx Hrefs IH];
    intros st1 st2 Hset Hmap Hstore.
  - by exists st1, st2.
  - destruct (shorten_file_ref_related num_chars st1 st2 x1 x2)
      as (st1' & st2' & Hs1 & Hs2 & Hset' & Hmap' & Hstore'); [by apply Hstore|done..|].
    cbn [for_each]. rewrite Hs1, Hs2. cbn. apply IH; [done|done|].
    intros p q Hpq.
    destruct Hstore' as [[-> ->]|(new & -> & ->)]; [by apply Hstore|].
    destruct (decide (x1 = p)) as [->|Hne].
    + assert (x2 = q) as -> by (by apply (HP p x2 p q)).
      by rewrite !fn_lookup_insert.
    + assert (x2 ≠ q) by (intros ->; by apply Hne, (HP x1 q p q)).
      rewrite !fn_lookup_insert_ne by done. by apply Hstore.
Qed.

(** Path shortening on two tables with the same paths in the order of the
    traversal, whatever the addresses of the objects. *)
Lemma HandleShortenFilePaths_related (t1 t2 : ResourceTable.t addr)
    (σ1 σ2 : store) (path_map : gmap string string) :
  table_wf t1 → table_wf t2 →
  (λ r, path (σ1 r)) <$> table_file_refs t1
  = (λ r, path (σ2 r)) <$> table_file_refs t2 →
  ∃ path_map' σ1' σ2',
    HandleShortenFilePaths t1 σ1 path_map = Some (true, path_map', σ1')
    ∧ HandleShortenFilePaths t2 σ2 path_map = Some (true, path_map', σ2')
    ∧ (λ r, path (σ1' r)) <$> table_file_refs t1
      = (λ r, path (σ2' r)) <$> table_file_refs t2.
Proof.
  intros Hwf1 Hwf2 Hpaths. unfold table_wf in *.
  set (l1 := table_file_refs t1) in *. set (l2 := table_file_refs t2) in *.
  set (P := λ p q, ∃ i, l1 !! i = Some p ∧ l2 !! i = Some q).
  assert (HPpath : ∀ p q, P p q → path (σ1 p) = path (σ2 q)).
  { intros p q (i & Hp & Hq).
    apply (f_equal (λ l, l !! i)) in Hpaths.
    rewrite !list_lookup_fmap, Hp, Hq in Hpaths. by injection Hpaths. }
  assert (HPfun : ∀ p q p' q', P p q → P p' q' → (p = p' ↔ q = q')).
  { intros p q p' q' (i & Hp & Hq) (j & Hp' & Hq'). split; intros ->.
    - assert (i = j) as -> by exact (NoDup_lookup l1 i j p' Hwf1 Hp Hp').
      congruence.
    - assert (i = j) as -> by exact (NoDup_lookup l2 i j q' Hwf2 Hq Hq').
      congruence. }
  assert (Hl : Forall2 P l1 l2).
  { apply Forall2_same_length_lookup. split.
    - apply (f_equal length) in Hpaths. by rewrite !length_fmap in Hpaths.
    - intros i p q Hp Hq. by exists i. }
  assert (Hrefs : Forall2 P (collect_file_refs σ1 t1) (collect_file_refs σ2 t2)).
  { unfold collect_file_refs. rewrite !file_refs_set_flat. by apply collect_related. }
  unfold HandleShortenFilePaths.
  assert (Hnum : num_chars_of (collect_file_refs σ1 t1)
                 = num_chars_of (collect_file_refs σ2 t2)).
  { unfold num_chars_of. by rewrite (Forall2_length _ _ _ Hrefs). }
  rewrite <- Hnum.
  destruct (for_each_related (num_chars_of (collect_file_refs σ1 t1)) P
              (collect_file_refs σ1 t1) (collect_file_refs σ2 t2)
              {| shortened_paths := ∅; st_shortened_path_map := path_map; st_store := σ1 |}
              {| shortened_paths := ∅; st_shortened_path_map := path_map; st_store := σ2 |})
    as (st1' & st2' & -> & -> & Hmap & Hstore); [done..|].
  exists (st_shortened_path_map st1'), (st_store st1'), (st_store st2').
  cbn. split; [done|]. split; [by rewrite Hmap|].
  apply list_eq_Forall2, Forall2_fmap.
  eapply Forall2_impl; [exact Hl|]. intros p q Hpq. by apply Hstore.
Qed.

(** C1: under one and the same [std::hash] and path splitter, the platform
    of this section, two runs of [Consume] with the same configuration on
    tables with the same contents, the [FileReference] objects at whatever
    addresses and each owned by one value, both return, with the same result
    and the same options, thus the same [id_resource_map] and
    [shortened_path_map], and leave the same paths in the file references,
    in the order of the traversal, thus tables with the same contents. *)
Theorem Consume_deterministic (self : Obfuscator) (t1 t2 : ResourceTable.t addr)
    (σ1 σ2 : store) :
  table_wf t1 → table_wf t2 →
  table_contents σ1 t1 = table_contents σ2 t2 →
  ∃ result options σ1' σ2',
    Consume self t1 σ1 = Some (result, options, σ1')
    ∧ Consume self t2 σ2 = Some (result, options, σ2')
    ∧ (λ r, path (σ1' r)) <$> table_file_refs t1
      = (λ r, path (σ2' r)) <$> table_file_refs t2
    ∧ table_contents σ1' t1 = table_contents σ2' t2.
Proof.
  intros Hwf1 Hwf2 Hcontents. unfold table_contents in Hcontents.
  assert (Hpaths : (λ r, path (σ1 r)) <$> table_file_refs t1
                   = (λ r, path (σ2 r)) <$> table_file_refs t2).
  { by rewrite <- !table_file_refs_map, Hcontents. }
  unfold Consume.
  rewrite <- (HandleCollapseKeyStringPool_map (λ r, path (σ1 r)) t1).
  rewrite <- (HandleCollapseKeyStringPool_map (λ r, path (σ2 r)) t2).
  rewrite Hcontents.
  destruct (HandleCollapseKeyStringPool _ _ _ _) as [ok id_map].
  destruct (shorten_resource_paths_ self).
  - destruct (HandleShortenFilePaths_related t1 t2 σ1 σ2
                (shortened_path_map (set_id_resource_map id_map (options_ self))))
      as (path_map' & σ1' & σ2' & -> & -> & Hpaths'); [done..|].
    cbn. eexists _, _, _, _. split; [done|]. split; [done|]. split; [done|].
    apply (table_map_related (λ p q, path (σ1' p) = path (σ2' q))
             (λ r, path (σ1 r)) (λ r, path (σ2 r))); [done|done|].
    by apply Forall2_fmap_eq.
  - by eexists _, _, _, _.
Qed.
End two_runs.

(** * The properties at concrete inputs *)

(** The alias of one path under two hash functions: the code fixes the
    alphabet and the grouping of the bits, the hash is the platform's. *)
Lemma ShortenFileName_follows_std_hash :
  @ShortenFileName zero_platform "res/drawable/foo.png" 2 = "AA"
  ∧ @ShortenFileName Ab_platform "res/drawable/foo.png" 2 = "Ab"
  ∧ @ShortenFileName zero_platform "res/drawable/foo.png" 2
    ≠ @ShortenFileName Ab_platform "res/drawable/foo.png" 2.
Proof. split; [by vm_compute|]. split; [by vm_compute|]. by vm_compute. Defined.

Lemma ShortenFileName_sextets_witness :
  String.length (@ShortenFileName byte_sum_platform "res/drawable/foo.png" 3) = 3%nat
  ∧ String.get 1 (@ShortenFileName byte_sum_platform "res/drawable/foo.png" 3)
    = Some (alphabet_symbol (sextet_group (byte_sum "res/drawable/foo.png") 1)).
Proof.
  destruct (@ShortenFileName_sextets byte_sum_platform "res/drawable/foo.png" 3)
    as [Hsize Hget].
  split; [exact Hsize|]. apply (Hget 1%nat). cbn. lia.
Defined.




Lemma overlayable_entry_kept_witness :
  ResourceEntry.overlayable_item app_name_entry ≠ None
  ∧ classification true ∅ "string" (entry_view app_name_entry) = Keep_Overlayable
  ∧ classification true exempt_app_name "string" (entry_view app_name_entry)
    = Keep_ExemptionList
  ∧ (HandleCollapseKeyStringPool names_table true ∅ ∅).2 !! 0x7f020000 = None.
Proof.
  assert (Hmarker : ResourceEntry.overlayable_item app_name_entry ≠ None) by done.
  split; [exact Hmarker|]. split; [|split].
  - destruct (overlayable_entry_kept names_table true ∅ ∅ string_type app_name_entry Hmarker)
      as (_ & Hkeep & _).
    apply Hkeep; [done|]. apply not_elem_of_empty.
  - destruct (overlayable_entry_kept names_table true exempt_app_name ∅ string_type
                app_name_entry Hmarker) as (_ & _ & Hexempt & _).
    apply Hexempt. right. by apply elem_of_singleton.
  - destruct (overlayable_entry_kept names_table true ∅ ∅ string_type app_name_entry Hmarker)
      as (_ & _ & _ & _ & Hsrc).
    destruct ((HandleCollapseKeyStringPool names_table true ∅ ∅).2 !! 0x7f020000)
      as [n|] eqn:Hn; [|done].
    destruct (Hsrc _ _ Hn) as [Hm|(type' & entry' & id & Hin & Hid & Hi & _ & Hov)];
      [by rewrite lookup_empty in Hm|].
    exfalso. revert Hin. unfold names_table, table_entries. cbn.
    rewrite !elem_of_cons, elem_of_nil.
    intros [[= -> ->]|[[= -> ->]|[[= -> ->]|[[= -> ->]|[[= -> ->]|[]]]]]];
      cbn in *; try discriminate; injection Hid as <-; discriminate.
Defined.

Lemma classification_in_order_witness :
  classification true exempt_app_name "string" (entry_view greeting_entry) = Obfuscated
  ∧ classification true ∅ "string" (entry_view app_name_entry) = Keep_Overlayable
  ∧ classification true exempt_app_name "string" (entry_view app_name_entry)
    = Keep_ExemptionList
  ∧ classification false ∅ "string" (entry_view greeting_entry) = Keep_ExemptionList.
Proof.
  split; [|split; [|split]].
  - destruct (classification_in_order names_table true exempt_app_name ∅ string_type
                greeting_entry) as (_ & _ & Hobf & _).
    apply Hobf; [done| |done]. by intros [=]%elem_of_singleton.
  - destruct (classification_in_order names_table true ∅ ∅ string_type app_name_entry)
      as (_ & Hkeep & _).
    apply Hkeep; [done| |done]. apply not_elem_of_empty.
  - destruct (classification_in_order names_table true exempt_app_name ∅ string_type
                app_name_entry) as (Hexempt & _).
    apply Hexempt. right. by apply elem_of_singleton.
  - destruct (classification_in_order names_table false ∅ ∅ string_type greeting_entry)
      as (Hexempt & _).
    apply Hexempt. by left.
Defined.

Lemma HandleCollapseKeyStringPool_obfuscated_only_witness :
  HandleCollapseKeyStringPool names_table true ∅ ∅
  = (true, {[ 0x7f020001 := "greeting"; 0xff020004 := "legal" ]})
  ∧ HandleCollapseKeyStringPool names_table true exempt_app_name
      {[ 0x7f020001 := "hello" ]}
    = (true, {[ 0x7f020001 := "hello"; 0xff020004 := "legal" ]}).
Proof.
  split.
  - destruct (HandleCollapseKeyStringPool_obfuscated_only names_table true ∅ ∅)
      as (_ & -> & _).
    by vm_compute.
  - destruct (HandleCollapseKeyStringPool_obfuscated_only names_table true exempt_app_name
                {[ 0x7f020001 := "hello" ]}) as (_ & -> & _).
    by vm_compute.
Defined.

Lemma color_state_lists_untouched_witness :
  @is_color_path byte_sum_platform "res/color/tint.xml" = true
  ∧ ∃ path_map' σ',
      @HandleShortenFilePaths byte_sum_platform example_table example_store ∅
      = Some (true, path_map', σ')
      ∧ path_map' !! "res/color/tint.xml" = None
      ∧ σ' 3%positive = example_store 3%positive.
Proof.
  destruct (@color_state_lists_untouched byte_sum_platform example_table example_store ∅)
    as (path_map' & σ' & Hrun & Hkey & Href).
  split; [reflexivity|]. exists path_map', σ'. split; [exact Hrun|]. split.
  - apply Hkey; [reflexivity|apply lookup_empty].
  - apply Href. reflexivity.
Defined.

(** The two references with the path [icon.png] are both in the set and
    end with different paths. *)
Lemma shortened_paths_distinct_witness :
  table_wf apart_table
  ∧ path (apart_store 1%positive) = path (apart_store 4%positive)
  ∧ ∃ path_map' σ',
      @HandleShortenFilePaths Ab_platform apart_table apart_store ∅
      = Some (true, path_map', σ')
      ∧ path (σ' 1%positive) ≠ path (σ' 4%positive)
      ∧ path (σ' 2%positive) ≠ path (σ' 3%positive)
      ∧ ∀ v1 v2, path_map' !! "res/drawable/bar.png" = Some v1 →
                 path_map' !! "res/drawable/icon.png" = Some v2 → v1 ≠ v2.
Proof.
  assert (Hwf : table_wf apart_table)
    by (apply (bool_decide_unpack _); vm_compute; exact I).
  split; [exact Hwf|]. split; [reflexivity|].
  destruct (@shortened_paths_distinct Ab_platform apart_table apart_store ∅ Hwf)
    as (path_map' & σ' & Hrun & Hrefs & Hvals).
  exists path_map', σ'. split; [exact Hrun|]. split; [|split].
  - apply Hrefs.
    + apply (bool_decide_unpack _). vm_compute. exact I.
    + apply (bool_decide_unpack _). vm_compute. exact I.
    + discriminate.
    + reflexivity.
    + reflexivity.
  - apply Hrefs.
    + apply (bool_decide_unpack _). vm_compute. exact I.
    + apply (bool_decide_unpack _). vm_compute. exact I.
    + discriminate.
    + reflexivity.
    + reflexivity.
  - intros v1 v2. apply Hvals; [discriminate|apply lookup_empty..].
Defined.

(** The scenario of the specification: both paths have the alias [Ab], the
    loop meets [foo.png] first. *)
Lemma collision_suffix_in_processing_order_witness :
  table_wf example_table
  ∧ (∀ r, r ∈ collect_file_refs example_store example_table →
        no_leading_digit (@extension_of Ab_platform (path (example_store r))) = true)
  ∧ collect_file_refs example_store example_table = [3; 2; 1]%positive
  ∧ ∃ path_map' σ',
      @HandleShortenFilePaths Ab_platform example_table example_store ∅
      = Some (true, path_map', σ')
      ∧ path (σ' 2%positive) = "res/Ab.png"
      ∧ path (σ' 1%positive) = "res/Ab1.png"
      ∧ path_map' !! "res/drawable/foo.png" = Some "res/Ab.png"
      ∧ path_map' !! "res/drawable/bar.png" = Some "res/Ab1.png".
Proof.
  assert (Hwf : table_wf example_table)
    by (apply (bool_decide_unpack _); vm_compute; exact I).
  assert (Hrefs : collect_file_refs example_store example_table = [3; 2; 1]%positive)
    by (vm_compute; reflexivity).
  assert (Hext : ∀ r, r ∈ collect_file_refs example_store example_table →
            no_leading_digit (@extension_of Ab_platform (path (example_store r))) = true).
  { intros r. rewrite Hrefs, !elem_of_cons, elem_of_nil.
    intros [->|[->|[->|[]]]]; reflexivity. }
  split; [exact Hwf|]. split; [exact Hext|]. split; [exact Hrefs|].
  destruct (@collision_suffix_in_processing_order Ab_platform example_table
              example_store ∅ Hwf Hext) as (path_map' & σ' & Hrun & Hall).
  exists path_map', σ'. split; [exact Hrun|].
  destruct (Hall [3%positive] 2%positive [1%positive] Hrefs eq_refl)
    as (_ & Hfoo & Hfoo_map).
  destruct (Hall [3; 2]%positive 1%positive [] Hrefs eq_refl)
    as (_ & Hbar & Hbar_map).
  assert (Hfoo_first : "res/drawable/foo.png"
            ∉ (λ r, path (example_store r)) <$> [3%positive]).
  { apply (bool_decide_unpack _). vm_compute. exact I. }
  assert (Hbar_first : "res/drawable/bar.png"
            ∉ (λ r, path (example_store r)) <$> [3; 2]%positive).
  { apply (bool_decide_unpack _). vm_compute. exact I. }
  specialize (Hfoo_map (lookup_empty _) Hfoo_first).
  specialize (Hbar_map (lookup_empty _) Hbar_first).
  rewrite Hfoo in Hfoo_map. rewrite Hbar in Hbar_map.
  split; [exact Hfoo|]. split; [exact Hbar|]. split; [exact Hfoo_map|exact Hbar_map].
Defined.

(** Two references with one path, both in the set: the loop meets the later
    one of the traversal first and gives it the bare alias, the earlier one
    gets the suffix 1; the map records the path of the one that the loop met
    first. *)
Lemma collision_suffix_same_path_twice :
  collect_file_refs apart_store apart_table = [4; 3; 2; 1]%positive
  ∧ path (apart_store 1%positive) = path (apart_store 4%positive)
  ∧ ∃ path_map' σ',
      @HandleShortenFilePaths byte_sum_platform apart_table apart_store ∅
      = Some (true, path_map', σ')
      ∧ path (σ' 4%positive) = "res/Gg.png"
      ∧ path (σ' 3%positive) = "res/Se.png"
      ∧ path (σ' 2%positive) = "res/Og.png"
      ∧ path (σ' 1%positive) = "res/Gg1.png"
      ∧ path_map' !! "res/drawable/icon.png" = Some "res/Gg.png".
Proof.
  split; [by vm_compute|]. split; [reflexivity|].
  eexists _, _. split; [reflexivity|]. repeat split; by vm_compute.
Qed.

(** Two runs on one table under two hash functions: the map and the paths
    follow the hash. *)
Lemma Consume_follows_std_hash :
  ∃ options1 options2 σ1 σ2,
    @Consume zero_platform example_obfuscator example_table example_store
    = Some (true, options1, σ1)
    ∧ @Consume Ab_platform example_obfuscator example_table example_store
      = Some (true, options2, σ2)
    ∧ shortened_path_map options1 !! "res/drawable/foo.png" = Some "res/AA.png"
    ∧ shortened_path_map options2 !! "res/drawable/foo.png" = Some "res/Ab.png"
    ∧ path (σ1 2%positive) = "res/AA.png"
    ∧ path (σ2 2%positive) = "res/Ab.png"
    ∧ shortened_path_map options1 ≠ shortened_path_map options2.
Proof.
  eexists _, _, _, _. split; [reflexivity|]. split; [reflexivity|].
  split; [by vm_compute|]. split; [by vm_compute|].
  split; [by vm_compute|]. split; [by vm_compute|].
  intros Heq. apply (f_equal (λ m, m !! "res/drawable/foo.png")) in Heq.
  vm_compute in Heq. discriminate.
Qed.

Lemma Consume_deterministic_witness :
  table_wf example_table ∧ table_wf example_table'
  ∧ table_contents example_store example_table
    = table_contents example_store' example_table'
  ∧ ∃ result options σ1' σ2',
      @Consume Ab_platform example_obfuscator example_table example_store
      = Some (result, options, σ1')
      ∧ @Consume Ab_platform example_obfuscator example_table' example_store'
        = Some (result, options, σ2')
      ∧ path (σ1' 1%positive) = path (σ2' 70%positive)
      ∧ path (σ1' 2%positive) = path (σ2' 50%positive)
      ∧ path (σ1' 3%positive) = path (σ2' 60%positive).
Proof.
  assert (Hwf : table_wf example_table)
    by (apply (bool_decide_unpack _); vm_compute; exact I).
  assert (Hwf' : table_wf example_table')
    by (apply (bool_decide_unpack _); vm_compute; exact I).
  assert (Hsame : table_contents example_store example_table
                  = table_contents example_store' example_table') by reflexivity.
  split; [exact Hwf|]. split; [exact Hwf'|]. split; [exact Hsame|].
  destruct (@Consume_deterministic Ab_platform example_obfuscator example_table
              example_table' example_store example_store' Hwf Hwf' Hsame)
    as (result & options & σ1' & σ2' & Hrun1 & Hrun2 & Hpaths & _).
  exists result, options, σ1', σ2'. split; [exact Hrun1|]. split; [exact Hrun2|].
  cbn in Hpaths. injection Hpaths as H1 H2 H3. by repeat split.
Defined.

(** * Further properties of the pass *)

(** ** The alias *)

Lemma ShortenFileName_loop_acc (n : nat) (hash_num : N) (result : string) :
  ShortenFileName_loop n hash_num result
  = result +:+ ShortenFileName_loop n hash_num "".
Proof.
  revert hash_num result. induction n as [|n IH]; intros hash_num result.
  - cbn. by rewrite string_app_nil_r.
  - rewrite !ShortenFileName_loop_S, IH.
    rewrite (IH _ ("" +:+ _)). by rewrite !string_app_assoc.
Qed.

Lemma ShortenFileName_loop_cons (n : nat) (hash_num : N) :
  ShortenFileName_loop (S n) hash_num ""
  = String (char_at base64_chars (N.to_nat (N.land hash_num 0x3f)))
      (ShortenFileName_loop n (N.shiftr hash_num 6) "").
Proof. by rewrite ShortenFileName_loop_S, ShortenFileName_loop_acc. Qed.

Lemma ShortenFileName_loop_add (a b : nat) (hash_num : N) :
  ShortenFileName_loop (a + b) hash_num ""
  = ShortenFileName_loop a hash_num ""
    +:+ ShortenFileName_loop b (N.shiftr hash_num (6 * N.of_nat a)) "".
Proof.
  revert hash_num. induction a as [|a IH]; intros hash_num.
  - cbn [Nat.add ShortenFileName_loop]. by rewrite N.shiftr_0_r.
  - change (S a + b)%nat with (S (a + b)).
    rewrite !ShortenFileName_loop_cons, string_app_cons, IH, N.shiftr_shiftr.
    do 3 f_equal. f_equal. lia.
Qed.

Lemma string_substring_app (s t : string) :
  String.substring 0 (String.length s) (s +:+ t) = s.
Proof.
  induction s as [|c s IH].
  - by destruct t.
  - rewrite string_app_cons. cbn. by rewrite IH.
Qed.

Lemma string_get_Some_lt (s : string) (i : nat) (c : ascii) :
  String.get i s = Some c → (i < String.length s)%nat.
Proof.
  revert i. induction s as [|d s IH]; intros i Hi; [done|].
  destruct i as [|i]; cbn in *; [lia|]. apply IH in Hi. lia.
Qed.

Lemma alphabet_symbol_alias (v : N) :
  (v < 64)%N →
  is_alias_symbol (alphabet_symbol v) = true
  ∧ alphabet_symbol v ≠ "/"%char ∧ alphabet_symbol v ≠ "."%char.
Proof.
  intros Hv.
  assert (Hall : forallb (λ n, bool_decide
            (is_alias_symbol (alphabet_symbol (N.of_nat n)) = true
             ∧ alphabet_symbol (N.of_nat n) ≠ "/"%char
             ∧ alphabet_symbol (N.of_nat n) ≠ "."%char)) (seq 0 64) = true)
    by (vm_compute; reflexivity).
  rewrite forallb_forall in Hall.
  specialize (Hall (N.to_nat v)). rewrite N2Nat.id in Hall.
  eapply bool_decide_eq_true, Hall, in_seq. lia.
Qed.

Lemma alphabet_symbol_inj (v w : N) :
  (v < 64)%N → (w < 64)%N → alphabet_symbol v = alphabet_symbol w → v = w.
Proof.
  intros Hv Hw Heq.
  assert (Hall : forallb (λ n, forallb (λ m, bool_decide
            (alphabet_symbol (N.of_nat n) = alphabet_symbol (N.of_nat m) → n = m))
            (seq 0 64)) (seq 0 64) = true)
    by (vm_compute; reflexivity).
  rewrite forallb_forall in Hall.
  specialize (Hall (N.to_nat v)). rewrite forallb_forall in Hall.
  specialize (Hall ltac:(apply in_seq; lia) (N.to_nat w) ltac:(apply in_seq; lia)).
  apply bool_decide_eq_true in Hall. rewrite !N2Nat.id in Hall.
  apply Hall in Heq. lia.
Qed.

(** Two hashes give the same [n] symbols exactly when they agree on their
    [6 n] low bits. *)
Lemma ShortenFileName_loop_eq_iff (n : nat) (x y : N) :
  ShortenFileName_loop n x "" = ShortenFileName_loop n y ""
  ↔ (x mod 2 ^ (6 * N.of_nat n) = y mod 2 ^ (6 * N.of_nat n))%N.
Proof.
  revert x y. induction n as [|n IH]; intros x y.
  - cbn [ShortenFileName_loop]. change (2 ^ (6 * N.of_nat 0))%N with 1%N.
    by rewrite !N.mod_1_r.
  - rewrite !ShortenFileName_loop_cons.
    replace (6 * N.of_nat (S n))%N with (6 + 6 * N.of_nat n)%N by lia.
    rewrite N.pow_add_r.
    rewrite !(N.Div0.mod_mul_r _ (2 ^ 6) (2 ^ (6 * N.of_nat n))).
    change 0x3f%N with (N.ones 6). rewrite !N.land_ones, !N.shiftr_div_pow2.
    pose proof (N.mod_lt x (2 ^ 6) ltac:(done)) as Hx.
    pose proof (N.mod_lt y (2 ^ 6) ltac:(done)) as Hy.
    change (2 ^ 6)%N with 64%N in *.
    rewrite !base64_chars_alphabet by done.
    split.
    + intros [= Hc Hrest]. apply alphabet_symbol_inj in Hc; [|done..].
      apply IH in Hrest. rewrite Hc, Hrest. done.
    + intros Heq.
      assert (x mod 64 = y mod 64 ∧
              (x / 64) mod 2 ^ (6 * N.of_nat n) = (y / 64) mod 2 ^ (6 * N.of_nat n))%N
        as [Hc Hrest].
      { revert Hx Hy Heq.
        generalize ((x / 64) mod 2 ^ (6 * N.of_nat n))%N
                   ((y / 64) mod 2 ^ (6 * N.of_nat n))%N (x mod 64)%N (y mod 64)%N.
        intros a b u v Hu Hv Heq. lia. }
      rewrite Hc. f_equal. by apply IH.
Qed.

Section alias_more.
Context `{Platform}.

(** X1: every symbol of an alias is a letter, a digit, a dash or an
    underscore; an alias holds no slash and no dot, so it is a file name of
    its own. *)
Theorem alias_symbols_path_safe (file_path : string) (output_length : Z)
    (i : nat) (c : ascii) :
  String.get i (ShortenFileName file_path output_length) = Some c →
  is_alias_symbol c = true ∧ c ≠ "/"%char ∧ c ≠ "."%char.
Proof.
  intros Hget. pose proof (string_get_Some_lt _ _ _ Hget) as Hi.
  rewrite ShortenFileName_length in Hi.
  unfold ShortenFileName in Hget.
  pose proof (ShortenFileName_loop_get (Z.to_nat output_length)
                (std_hash file_path) "" i Hi) as Hsym.
  cbn [String.length Nat.add] in Hsym. rewrite Hsym in Hget. injection Hget as <-.
  apply alphabet_symbol_alias, sextet_group_lt.
Qed.

(** X2: a shorter alias of a path is the beginning of a longer one; the
    alias of length 2 is the first two symbols of the alias of length 3. *)
Theorem alias_prefix_of_longer (file_path : string) (m n : Z) :
  m ≤ n →
  String.substring 0 (Z.to_nat m) (ShortenFileName file_path n)
  = ShortenFileName file_path m.
Proof.
  intros Hmn. unfold ShortenFileName.
  replace (Z.to_nat n) with (Z.to_nat m + (Z.to_nat n - Z.to_nat m))%nat by lia.
  rewrite ShortenFileName_loop_add.
  rewrite <- (ShortenFileName_loop_length (Z.to_nat m) (std_hash file_path) "") at 1.
  cbn [String.length Nat.add]. apply string_substring_app.
Qed.

(** X3: two paths have the same alias of a length exactly when their hashes
    agree on the low six bits per symbol. *)
Theorem alias_equal_iff_low_bits (file_path file_path' : string) (output_length : Z) :
  ShortenFileName file_path output_length = ShortenFileName file_path' output_length
  ↔ (std_hash file_path mod 2 ^ (6 * Z.to_N output_length)
     = std_hash file_path' mod 2 ^ (6 * Z.to_N output_length))%N.
Proof.
  unfold ShortenFileName. rewrite ShortenFileName_loop_eq_iff.
  by rewrite Z_nat_N.
Qed.

(** X4: a hash has 64 bits, so the symbols of an alias from the twelfth on
    are all [A]. *)
Theorem alias_padding (file_path : string) (output_length : Z) (i : nat) :
  (std_hash file_path < 2 ^ 64)%N →
  (11 ≤ i < Z.to_nat output_length)%nat →
  String.get i (ShortenFileName file_path output_length) = Some "A"%char.
Proof.
  intros Hhash [Hi Hlen]. unfold ShortenFileName.
  pose proof (ShortenFileName_loop_get (Z.to_nat output_length)
                (std_hash file_path) "" i Hlen) as Hsym.
  cbn [String.length Nat.add] in Hsym. rewrite Hsym. f_equal.
  unfold sextet_group. rewrite N.div_small; [done|].
  eapply N.lt_le_trans; [exact Hhash|]. apply N.pow_le_mono_r; lia.
Qed.
End alias_more.

(** ** The comparator and the set of file references *)

(** X5: the comparator answers the same for a pair and for the swapped pair,
    answers false for a reference and itself, and answers false exactly when
    the two paths are equal; so of two references with different paths each
    is put before the other. *)
Theorem PathComparator_no_order (σ : store) (lhs rhs : addr) :
  PathComparator σ lhs rhs = PathComparator σ rhs lhs
  ∧ PathComparator σ lhs lhs = false
  ∧ (PathComparator σ lhs rhs = false ↔ path (σ lhs) = path (σ rhs))
  ∧ (path (σ lhs) ≠ path (σ rhs) →
     PathComparator σ lhs rhs = true ∧ PathComparator σ rhs lhs = true).
Proof.
  split; [|split; [|split]].
  - destruct (PathComparator σ rhs lhs) eqn:Hc.
    + apply PathComparator_true in Hc. apply PathComparator_true. congruence.
    + apply PathComparator_false in Hc. apply PathComparator_false. congruence.
  - by apply PathComparator_false.
  - apply PathComparator_false.
  - intros Hne. split; apply PathComparator_true; congruence.
Qed.

(** Under [PathComparator] the set grows at the front only. *)
Lemma foldl_PathComparator_front (σ : store) (l : list addr) (t : tree addr) :
  ∃ m, elements (foldl (λ file_refs file_ref,
                          set_insert (PathComparator σ) file_ref file_refs) t l)
       = m ++ elements t
       ∧ sublist m (reverse l).
Proof.
  revert t. induction l as [|k l IH]; intros t.
  { exists []. split; [done|]. constructor. }
  cbn [foldl]. destruct (IH (set_insert (PathComparator σ) k t)) as (m & Hm & Hsub).
  rewrite reverse_cons.
  destruct (set_insert_PathComparator σ k t) as [[_ Heq]|[_ Heq]].
  - exists m. rewrite Hm, Heq. split; [done|]. by apply sublist_inserts_r.
  - exists (m ++ [k]). rewrite Hm, Heq, <- app_assoc. split; [done|].
    by apply sublist_app.
Qed.

Lemma first_with_path (σ : store) (l : list addr) (p : string) :
  p ∈ (λ e, path (σ e)) <$> l →
  ∃ l1 r l2, l = l1 ++ r :: l2 ∧ path (σ r) = p ∧ p ∉ (λ e, path (σ e)) <$> l1.
Proof.
  induction l as [|x l IH]; [by intros ?%elem_of_nil|].
  rewrite fmap_cons. intros Hin.
  destruct (decide (path (σ x) = p)) as [Hx|Hx].
  - exists [], x, l. split; [done|]. split; [done|]. by intros ?%elem_of_nil.
  - apply elem_of_cons in Hin as [Heq|Hin]; [congruence|].
    destruct (IH Hin) as (l1 & r & l2 & -> & Hr & Hout).
    exists (x :: l1), r, l2. split; [done|]. split; [done|].
    rewrite fmap_cons. intros [?|?]%elem_of_cons; [congruence|done].
Qed.

(** The first reference of the traversal with its path is inserted, and
    stays. *)
Lemma collect_file_refs_first (σ : store) (table : ResourceTable.t addr)
    (l1 l2 : list addr) (r : addr) :
  table_file_refs table = l1 ++ r :: l2 →
  path (σ r) ∉ (λ e, path (σ e)) <$> l1 →
  r ∈ collect_file_refs σ table.
Proof.
  intros Hrefs Hfirst. unfold collect_file_refs.
  rewrite file_refs_set_flat, Hrefs, foldl_app. cbn [foldl].
  set (t := foldl _ Leaf l1).
  destruct (foldl_PathComparator_front σ l2 (set_insert (PathComparator σ) r t))
    as (m & -> & _).
  apply elem_of_app. right. rewrite set_insert_new_path; [by left|].
  intros (e & Heq & He)%list_elem_of_fmap.
  apply elem_of_foldl_set_insert in He as [?%elem_of_nil|He]; [done|].
  apply Hfirst. rewrite Heq. apply list_elem_of_fmap. by exists e.
Qed.

(** X6: the set iterates a subsequence of the references of the table in
    the reverse of the order of the traversal.  It holds the first
    reference of the traversal with each path, so that it has the same paths
    as the table, and it is the whole reversed traversal when the paths are
    pairwise different; a later reference with a path seen before may be in
    the set or not. *)
Theorem collect_file_refs_reverse_subsequence (σ : store)
    (table : ResourceTable.t addr) :
  let refs := table_file_refs table in
  let file_refs := collect_file_refs σ table in
  sublist file_refs (reverse refs)
  ∧ (∀ l1 r l2, refs = l1 ++ r :: l2 →
       path (σ r) ∉ (λ e, path (σ e)) <$> l1 → r ∈ file_refs)
  ∧ (∀ file_path, file_path ∈ (λ r, path (σ r)) <$> file_refs
       ↔ file_path ∈ (λ r, path (σ r)) <$> refs)
  ∧ (NoDup ((λ r, path (σ r)) <$> refs) → file_refs = reverse refs).
Proof.
  intros refs file_refs. split; [|split; [|split]].
  - subst file_refs refs. unfold collect_file_refs. rewrite file_refs_set_flat.
    destruct (foldl_PathComparator_front σ (table_file_refs table) Leaf)
      as (m & -> & Hsub).
    cbn [elements]. by rewrite app_nil_r.
  - intros l1 r l2 Hrefs Hfirst. by eapply collect_file_refs_first.
  - intros file_path. split.
    + intros (r & -> & Hr)%list_elem_of_fmap. apply list_elem_of_fmap.
      exists r. split; [done|]. by eapply collect_file_refs_subseteq.
    + intros (l1 & r & l2 & Hrefs & <- & Hfirst)%first_with_path.
      apply list_elem_of_fmap. exists r. split; [done|].
      by eapply collect_file_refs_first.
  - intros Hnd. subst file_refs refs. unfold collect_file_refs.
    rewrite file_refs_set_flat, collect_distinct_paths; cbn [elements];
      rewrite app_nil_r; [done|].
    rewrite fmap_reverse. by rewrite (reverse_Permutation _).
Qed.

(** X16: an insertion into the set compares the new reference with the
    nodes on the way down the left children only: the set stays as it is
    when one of them has the path of the new reference, and otherwise the
    new reference becomes the first element of the iteration, also when a
    reference elsewhere in the set has its path. *)
Theorem set_insert_compares_with_left_spine (σ : store) (k : addr) (t : tree addr) :
  (path (σ k) ∈ (λ e, path (σ e)) <$> left_spine t →
   set_insert (PathComparator σ) k t = t)
  ∧ (path (σ k) ∉ (λ e, path (σ e)) <$> left_spine t →
     elements (set_insert (PathComparator σ) k t) = k :: elements t)
  ∧ path (σ k) ∈ (λ e, path (σ e)) <$> left_spine (set_insert (PathComparator σ) k t).
Proof.
  split; [|split].
  - intros Hin. by destruct (set_insert_PathComparator σ k t) as [[_ ?]|[? _]].
  - intros Hout. by destruct (set_insert_PathComparator σ k t) as [[? _]|[_ ?]].
  - apply set_insert_left_spine.
Qed.

(** ** What a run of the path shortening leaves *)

Lemma for_each_unchanged {S A} (body : S → A → option S) (l : list A) (st : S) :
  (∀ x, x ∈ l → body st x = Some st) → for_each body l st = Some st.
Proof.
  induction l as [|x l IH]; intros Hbody; [done|].
  cbn [for_each]. rewrite Hbody by (by left). cbn. apply IH.
  intros y Hy. apply Hbody. by right.
Qed.

Lemma OptimalShortenedLength_cases (num_resources : Z) :
  OptimalShortenedLength num_resources = 2 ∨ OptimalShortenedLength num_resources = 3.
Proof. unfold OptimalShortenedLength. destruct (num_resources >? 4000); auto. Qed.

Section run_properties.
Context `{Platform}.

(** X7: on a table whose values each own their file reference, the pass
    writes only file references of the set: an object that the table does
    not hold keeps its path.  A reference of the set that the loop shortens,
    be it the only one with its path or not, ends with [res/], an alias of
    two or three symbols, a count (none for zero) that is below the number
    of references of the set, and the extension of its old path. *)
Theorem rewritten_paths_shape (table : ResourceTable.t addr) (σ : store)
    (path_map : gmap string string) :
  let file_refs := collect_file_refs σ table in
  table_wf table →
  ∃ path_map' σ',
    HandleShortenFilePaths table σ path_map = Some (true, path_map', σ')
    ∧ (∀ r, r ∉ table_file_refs table → σ' r = σ r)
    ∧ (∀ r, r ∉ file_refs → σ' r = σ r)
    ∧ (∀ r, r ∈ file_refs → is_color_path (path (σ r)) = false →
         ∃ alias c,
           (String.length alias = 2%nat ∨ String.length alias = 3%nat)
           ∧ 0 ≤ c < Z.of_nat (length file_refs)
           ∧ path (σ' r)
             = "res/" +:+ alias +:+ count_suffix c +:+ extension_of (path (σ r))).
Proof.
  intros file_refs Hwf.
  destruct (HandleShortenFilePaths_run table σ path_map Hwf)
    as (path_map' & σ' & Hrun & Hout & _ & Hshape & _).
  exists path_map', σ'. split; [done|]. split; [|split; [done|]].
  - intros r Hr. apply Hout. intros Hin. by apply Hr, (collect_file_refs_subseteq σ).
  - intros r Hr Hcol. destruct (Hshape r Hr Hcol) as (c & Hc & Hlt & Hpath).
    exists (ShortenFileName (path (σ r)) (num_chars_of (collect_file_refs σ table))), c.
    split; [|split; [fold file_refs in Hlt; lia|]].
    + rewrite ShortenFileName_length. unfold num_chars_of.
      destruct (OptimalShortenedLength_cases
                  (to_int (Z.of_nat (length (collect_file_refs σ table))))) as [-> | ->];
        [by left|by right].
    + by rewrite Hpath, GetShortenedPath_shape.
Qed.

(** X8: on a table whose values each own their file reference, after the
    pass [shortened_path_map] holds what it held before and, for every
    file reference that the loop shortened as the first of the set with its
    path and whose old path was no key yet, the new path under the old one;
    it holds nothing else.  Under a path that two references of the set
    share it holds the new path of the one that the loop shortened first. *)
Theorem shortened_path_map_records_rewrites (table : ResourceTable.t addr)
    (σ : store) (path_map : gmap string string) :
  let file_refs := collect_file_refs σ table in
  table_wf table →
  ∃ path_map' σ',
    HandleShortenFilePaths table σ path_map = Some (true, path_map', σ')
    ∧ (∀ k v, path_map !! k = Some v → path_map' !! k = Some v)
    ∧ (∀ done r rest, file_refs = done ++ r :: rest →
         is_color_path (path (σ r)) = false →
         path_map !! path (σ r) = None →
         path (σ r) ∉ (λ r, path (σ r)) <$> done →
         path_map' !! path (σ r) = Some (path (σ' r)))
    ∧ (∀ k v, path_map' !! k = Some v →
         path_map !! k = Some v
         ∨ ∃ r, r ∈ file_refs ∧ is_color_path (path (σ r)) = false
                ∧ k = path (σ r) ∧ v = path (σ' r))
    ∧ (∀ done1 r1 done2 r2 rest, file_refs = done1 ++ r1 :: done2 ++ r2 :: rest →
         is_color_path (path (σ r1)) = false →
         path (σ r1) = path (σ r2) →
         path (σ r1) ∉ (λ r, path (σ r)) <$> done1 →
         path_map !! path (σ r1) = None →
         path_map' !! path (σ r2) = Some (path (σ' r1))).
Proof.
  intros file_refs Hwf.
  destruct (HandleShortenFilePaths_run table σ path_map Hwf)
    as (path_map' & σ' & Hrun & _ & _ & Hshape & Hnew & Honly & Hold).
  fold file_refs in Hnew, Honly, Hshape.
  exists path_map', σ'. split; [done|]. split; [done|]. split; [done|].
  split; [done|].
  intros done1 r1 done2 r2 rest Hrefs Hcol Hsame Hfirst Hnone.
  rewrite <- Hsame. by eapply Hnew.
Qed.

(** X9: on a table whose values each own their file reference, a file
    reference that the traversal meets right after one with the same path is
    not inserted into the set; it is not rewritten and keeps the old path.
    (One that comes later may be inserted, as the insertion only meets the
    nodes on the way down the left children.) *)
Theorem adjacent_same_path_reference_kept (table : ResourceTable.t addr) (σ : store)
    (path_map : gmap string string) (l1 l3 : list addr) (r1 r2 : addr) :
  table_wf table →
  table_file_refs table = l1 ++ r1 :: r2 :: l3 →
  path (σ r1) = path (σ r2) →
  (r2 ∉ collect_file_refs σ table)
  ∧ ∃ path_map' σ',
      HandleShortenFilePaths table σ path_map = Some (true, path_map', σ')
      ∧ σ' r2 = σ r2.
Proof.
  intros Hwf Hrefs Hsame.
  assert (Hout : r2 ∉ collect_file_refs σ table).
  { unfold table_wf in Hwf. rewrite Hrefs in Hwf.
    apply NoDup_app in Hwf as (_ & Hl1 & [Hr1 [Hr2 _]%NoDup_cons]%NoDup_cons).
    unfold collect_file_refs.
    rewrite file_refs_set_flat, Hrefs, foldl_app. cbn [foldl].
    set (t := foldl _ Leaf l1).
    assert (Hskip : set_insert (PathComparator σ) r2 (set_insert (PathComparator σ) r1 t)
                    = set_insert (PathComparator σ) r1 t).
    { destruct (set_insert_PathComparator σ r2 (set_insert (PathComparator σ) r1 t))
        as [[_ ?]|[Hnot _]]; [done|].
      destruct Hnot. rewrite <- Hsame. apply set_insert_left_spine. }
    rewrite Hskip.
    intros [[->|Hin]%elem_of_set_insert|Hin]%elem_of_foldl_set_insert.
    - apply Hr1. by left.
    - apply elem_of_foldl_set_insert in Hin as [?%elem_of_nil|Hin]; [done|].
      apply (Hl1 r2 Hin). right. by left.
    - done. }
  split; [done|].
  destruct (HandleShortenFilePaths_run table σ path_map Hwf)
    as (path_map' & σ' & Hrun & Hframe & _).
  exists path_map', σ'. split; [done|]. by apply Hframe.
Qed.

(** X10: a table whose file references are all colour state lists, and so a
    table without file references, is left as it is: the pass returns the
    map and the store that it was given. *)
Theorem color_only_table_untouched (table : ResourceTable.t addr) (σ : store)
    (path_map : gmap string string) :
  (∀ r, r ∈ table_file_refs table → is_color_path (path (σ r)) = true) →
  HandleShortenFilePaths table σ path_map = Some (true, path_map, σ).
Proof.
  intros Hcolor. unfold HandleShortenFilePaths.
  rewrite for_each_unchanged; [done|].
  intros x Hx%collect_file_refs_subseteq.
  destruct (shorten_file_ref_cases (num_chars_of (collect_file_refs σ table))
              {| shortened_paths := ∅; st_shortened_path_map := path_map; st_store := σ |} x)
    as [[_ ->]|[Hcol _]]; [done|].
  cbn in Hcol. rewrite Hcolor in Hcol by done. discriminate.
Qed.
End run_properties.

(** ** The id-to-name map and the whole pass *)

Lemma record_all_app (m : gmap Z string) (l1 l2 : list (Z * string)) :
  record_all m (l1 ++ l2) = record_all (record_all m l1) l2.
Proof. unfold record_all. apply foldl_app. Qed.

Lemma record_all_lookup_None (m : gmap Z string) (records : list (Z * string)) (i : Z) :
  m !! i = None → i ∉ records.*1 → record_all m records !! i = None.
Proof.
  intros Hm Hi. destruct (record_all m records !! i) as [n|] eqn:Hn; [|done].
  apply record_all_lookup_inv in Hn as [Hn|Hn]; [congruence|].
  destruct Hi. apply list_elem_of_fmap. by exists (i, n).
Qed.

(** X11: the driver never replaces a name: an id that the map already binds
    keeps its name, and of several obfuscated entries with one resolved id
    the first that the loops meet gives the name. *)
Theorem id_resource_map_first_name_wins {R} (table : ResourceTable.t R)
    (collapse : bool) (exemptions : gset ResourceName.t) (m : gmap Z string) :
  let result := HandleCollapseKeyStringPool table collapse exemptions m in
  (∀ i n, m !! i = Some n → result.2 !! i = Some n)
  ∧ (∀ l1 i n l2,
       obfuscated_records collapse exemptions table = l1 ++ (i, n) :: l2 →
       i ∉ l1.*1 → m !! i = None → result.2 !! i = Some n).
Proof.
  intros result. subst result. rewrite HandleCollapseKeyStringPool_record_all. cbn [snd].
  split.
  - intros i n. apply record_all_lookup_Some.
  - intros l1 i n l2 -> Hfirst Hfresh.
    rewrite record_all_app. cbn [record_all foldl]. apply record_all_lookup_Some.
    cbn [fst snd]. apply map_insert_lookup_fresh. by apply record_all_lookup_None.
Qed.

Lemma set_id_resource_map_same (o : TableFlattenerOptions) :
  set_id_resource_map (id_resource_map o) o = o.
Proof. by destruct o. Qed.

Section pass.
Context `{Platform}.

(** X12: [Consume] returns, and it reports success; it leaves the two flags
    and the exemption set of the options as they are, and every binding that
    [id_resource_map] or [shortened_path_map] held before is still there
    afterwards. *)
Theorem Consume_succeeds_and_keeps_bindings (self : Obfuscator)
    (table : ResourceTable.t addr) (σ : store) :
  ∃ options σ',
    Consume self table σ = Some (true, options, σ')
    ∧ collapse_key_stringpool options = collapse_key_stringpool (options_ self)
    ∧ name_collapse_exemptions options = name_collapse_exemptions (options_ self)
    ∧ (∀ i n, id_resource_map (options_ self) !! i = Some n →
         id_resource_map options !! i = Some n)
    ∧ (∀ k v, shortened_path_map (options_ self) !! k = Some v →
         shortened_path_map options !! k = Some v).
Proof.
  unfold Consume. rewrite HandleCollapseKeyStringPool_record_all.
  destruct (shorten_resource_paths_ self).
  - destruct (HandleShortenFilePaths_returns table σ
                (shortened_path_map (set_id_resource_map
                   (record_all (id_resource_map (options_ self))
                      (obfuscated_records (collapse_key_stringpool (options_ self))
                         (name_collapse_exemptions (options_ self)) table))
                   (options_ self))))
      as (path_map' & σ' & -> & Hold).
    cbn. eexists _, _. split; [done|]. cbn. split; [done|]. split; [done|].
    split; [intros i n; apply record_all_lookup_Some|exact Hold].
  - eexists _, _. split; [done|]. cbn. split; [done|]. split; [done|].
    split; [intros i n; apply record_all_lookup_Some|done].
Qed.

(** X13: with path shortening disabled [Consume] leaves
    [shortened_path_map] and every file reference as they are, and with
    name collapsing disabled it leaves [id_resource_map] as it is. *)
Theorem Consume_disabled_parts (self : Obfuscator) (table : ResourceTable.t addr)
    (σ : store) :
  ∃ options σ',
    Consume self table σ = Some (true, options, σ')
    ∧ (shorten_resource_paths_ self = false →
       shortened_path_map options = shortened_path_map (options_ self) ∧ σ' = σ)
    ∧ (collapse_key_stringpool (options_ self) = false →
       id_resource_map options = id_resource_map (options_ self)).
Proof.
  unfold Consume.
  destruct (shorten_resource_paths_ self).
  - destruct (HandleCollapseKeyStringPool _ _ _ _) as [ok id_map] eqn:Hcollapse.
    destruct (HandleShortenFilePaths_returns table σ
                (shortened_path_map (set_id_resource_map id_map (options_ self))))
      as (path_map' & σ' & -> & _).
    cbn. eexists _, _. split; [done|]. split; [done|]. cbn.
    intros Hoff. unfold HandleCollapseKeyStringPool in Hcollapse.
    rewrite Hoff in Hcollapse. cbn in Hcollapse. by injection Hcollapse as _ <-.
  - destruct (HandleCollapseKeyStringPool _ _ _ _) as [ok id_map] eqn:Hcollapse.
    eexists _, _. split; [done|]. split; [done|]. cbn.
    intros Hoff. unfold HandleCollapseKeyStringPool in Hcollapse.
    rewrite Hoff in Hcollapse. cbn in Hcollapse. by injection Hcollapse as _ <-.
Qed.

(** X14: an obfuscator built from options for which [IsEnabled] answers
    false does nothing: [Consume] reports success and returns the options
    and the store that it was given. *)
Theorem Consume_not_enabled (optimizeOptions : OptimizeOptions)
    (table : ResourceTable.t addr) (σ : store) :
  IsEnabled (Obfuscator_new optimizeOptions) = false →
  Consume (Obfuscator_new optimizeOptions) table σ
  = Some (true, table_flattener_options optimizeOptions, σ).
Proof.
  unfold IsEnabled, Obfuscator_new, Consume. cbn.
  intros [Hshorten Hcollapse]%orb_false_iff.
  unfold HandleCollapseKeyStringPool. rewrite Hshorten, Hcollapse. cbn.
  by rewrite set_id_resource_map_same.
Qed.
End pass.

(** ** Shortened paths *)

(** X15: for aliases of one length and extensions that do not begin with a
    decimal digit, a shortened path determines the alias, the extension and
    the collision count it was made from. *)
Theorem GetShortenedPath_decodes (fn fn' ext ext' : string) (c c' : Z) :
  String.length fn = String.length fn' →
  no_leading_digit ext = true → no_leading_digit ext' = true →
  0 ≤ c → 0 ≤ c' →
  GetShortenedPath fn ext c = GetShortenedPath fn' ext' c'
  ↔ fn = fn' ∧ ext = ext' ∧ c = c'.
Proof.
  intros Hlen He He' Hc Hc'. split.
  - by apply GetShortenedPath_inj.
  - by intros (-> & -> & ->).
Qed.

(** ** The further properties at concrete inputs *)

Lemma alias_symbols_path_safe_witness :
  String.get 0 (@ShortenFileName byte_sum_platform "res/drawable/foo.png" 3)
  = Some "h"%char
  ∧ is_alias_symbol "h" = true ∧ "h"%char ≠ "/"%char ∧ "h"%char ≠ "."%char.
Proof.
  assert (Hget : String.get 0 (@ShortenFileName byte_sum_platform "res/drawable/foo.png" 3)
                 = Some "h"%char) by reflexivity.
  split; [exact Hget|].
  exact (@alias_symbols_path_safe byte_sum_platform "res/drawable/foo.png" 3 0 "h" Hget).
Defined.

Lemma alias_prefix_of_longer_witness :
  2 ≤ 3
  ∧ String.substring 0 2 (@ShortenFileName byte_sum_platform "res/drawable/foo.png" 3)
    = @ShortenFileName byte_sum_platform "res/drawable/foo.png" 2.
Proof.
  assert (Hle : 2 ≤ 3) by lia.
  split; [exact Hle|].
  exact (@alias_prefix_of_longer byte_sum_platform "res/drawable/foo.png" 2 3 Hle).
Defined.

Lemma alias_padding_witness :
  (@std_hash Ab_platform "res/drawable/foo.png" < 2 ^ 64)%N
  ∧ (11 ≤ 11 < Z.to_nat 12)%nat
  ∧ String.get 11 (@ShortenFileName Ab_platform "res/drawable/foo.png" 12)
    = Some "A"%char.
Proof.
  assert (Hhash : (@std_hash Ab_platform "res/drawable/foo.png" < 2 ^ 64)%N)
    by reflexivity.
  assert (Hi : (11 ≤ 11 < Z.to_nat 12)%nat) by (cbn; lia).
  split; [exact Hhash|]. split; [exact Hi|].
  exact (@alias_padding Ab_platform "res/drawable/foo.png" 12 11 Hhash Hi).
Defined.

Lemma rewritten_paths_shape_witness :
  table_wf apart_table
  ∧ ∃ path_map' σ',
      @HandleShortenFilePaths byte_sum_platform apart_table apart_store ∅
      = Some (true, path_map', σ')
      ∧ σ' 9%positive = apart_store 9%positive
      ∧ ∃ alias c,
          (String.length alias = 2%nat ∨ String.length alias = 3%nat)
          ∧ 0 ≤ c < 4
          ∧ path (σ' 1%positive) = "res/" +:+ alias +:+ count_suffix c +:+ ".png".
Proof.
  assert (Hwf : table_wf apart_table)
    by (apply (bool_decide_unpack _); vm_compute; exact I).
  split; [exact Hwf|].
  destruct (@rewritten_paths_shape byte_sum_platform apart_table apart_store ∅ Hwf)
    as (path_map' & σ' & Hrun & Hout & _ & Hshape).
  exists path_map', σ'. split; [exact Hrun|]. split.
  - apply Hout. apply (bool_decide_unpack _). vm_compute. exact I.
  - apply (Hshape 1%positive).
    + apply (bool_decide_unpack _). vm_compute. exact I.
    + reflexivity.
Defined.

Lemma shortened_path_map_records_rewrites_witness :
  table_wf apart_table
  ∧ collect_file_refs apart_store apart_table
    = [] ++ 4%positive :: [3; 2]%positive ++ 1%positive :: []
  ∧ ∃ path_map' σ',
      @HandleShortenFilePaths byte_sum_platform apart_table apart_store ∅
      = Some (true, path_map', σ')
      ∧ path_map' !! "res/drawable/icon.png" = Some (path (σ' 4%positive)).
Proof.
  assert (Hwf : table_wf apart_table)
    by (apply (bool_decide_unpack _); vm_compute; exact I).
  assert (Hrefs : collect_file_refs apart_store apart_table
                  = [] ++ 4%positive :: [3; 2]%positive ++ 1%positive :: [])
    by (vm_compute; reflexivity).
  split; [exact Hwf|]. split; [exact Hrefs|].
  destruct (@shortened_path_map_records_rewrites byte_sum_platform apart_table
              apart_store ∅ Hwf)
    as (path_map' & σ' & Hrun & _ & _ & _ & Hshared).
  exists path_map', σ'. split; [exact Hrun|].
  apply (Hshared [] 4%positive [3; 2]%positive 1%positive [] Hrefs).
  - reflexivity.
  - reflexivity.
  - apply not_elem_of_nil.
  - apply lookup_empty.
Defined.

Lemma adjacent_same_path_reference_kept_witness :
  table_wf twin_table
  ∧ table_file_refs twin_table = [] ++ 1%positive :: 2%positive :: [3%positive]
  ∧ path (twin_store 1%positive) = path (twin_store 2%positive)
  ∧ ∃ path_map' σ',
      @HandleShortenFilePaths byte_sum_platform twin_table twin_store ∅
      = Some (true, path_map', σ')
      ∧ path (σ' 2%positive) = "res/drawable/icon.png".
Proof.
  assert (Hwf : table_wf twin_table)
    by (apply (bool_decide_unpack _); vm_compute; exact I).
  assert (Hrefs : table_file_refs twin_table
                  = [] ++ 1%positive :: 2%positive :: [3%positive]) by reflexivity.
  assert (Hsame : path (twin_store 1%positive) = path (twin_store 2%positive))
    by reflexivity.
  split; [exact Hwf|]. split; [exact Hrefs|]. split; [exact Hsame|].
  destruct (@adjacent_same_path_reference_kept byte_sum_platform twin_table twin_store ∅
              [] [3%positive] 1%positive 2%positive Hwf Hrefs Hsame)
    as (_ & path_map' & σ' & Hrun & Hkept).
  exists path_map', σ'. split; [exact Hrun|]. by rewrite Hkept.
Defined.

Lemma color_only_table_untouched_witness :
  (∀ r, r ∈ table_file_refs color_only_table →
        @is_color_path byte_sum_platform (path (example_store r)) = true)
  ∧ @HandleShortenFilePaths byte_sum_platform color_only_table example_store ∅
    = Some (true, ∅, example_store).
Proof.
  assert (Hcolor : ∀ r, r ∈ table_file_refs color_only_table →
            @is_color_path byte_sum_platform (path (example_store r)) = true).
  { intros r. change (table_file_refs color_only_table) with [3%positive].
    rewrite list_elem_of_singleton. by intros ->. }
  split; [exact Hcolor|].
  exact (@color_only_table_untouched byte_sum_platform color_only_table example_store
           ∅ Hcolor).
Defined.

Lemma id_resource_map_first_name_wins_witness :
  (HandleCollapseKeyStringPool clash_table true ∅ ∅).2 !! 0x7f020000 = Some "first"
  ∧ (HandleCollapseKeyStringPool clash_table true ∅ {[ 0x7f020000 := "old" ]}).2
      !! 0x7f020000 = Some "old".
Proof.
  split.
  - destruct (id_resource_map_first_name_wins clash_table true ∅ ∅) as [_ Hfirst].
    apply (Hfirst [] 0x7f020000 "first" [(0x7f020000, "second")]).
    + reflexivity.
    + apply not_elem_of_nil.
    + apply lookup_empty.
  - destruct (id_resource_map_first_name_wins clash_table true ∅
                {[ 0x7f020000 := "old" ]}) as [Hold _].
    apply Hold. apply lookup_singleton_eq.
Defined.

Lemma Consume_not_enabled_witness :
  IsEnabled (Obfuscator_new disabled_options) = false
  ∧ @Consume byte_sum_platform (Obfuscator_new disabled_options) example_table
      example_store
    = Some (true, table_flattener_options disabled_options, example_store).
Proof.
  assert (Hoff : IsEnabled (Obfuscator_new disabled_options) = false) by reflexivity.
  split; [exact Hoff|].
  exact (@Consume_not_enabled byte_sum_platform disabled_options example_table
           example_store Hoff).
Defined.

Lemma GetShortenedPath_decodes_witness :
  String.length "Ab" = String.length "Ab"
  ∧ no_leading_digit ".png" = true
  ∧ 0 ≤ 1 ∧ 0 ≤ 2
  ∧ GetShortenedPath "Ab" ".png" 1 ≠ GetShortenedPath "Ab" ".png" 2.
Proof.
  assert (Hlen : String.length "Ab" = String.length "Ab") by reflexivity.
  assert (Hext : no_leading_digit ".png" = true) by reflexivity.
  assert (H1 : 0 ≤ 1) by lia. assert (H2 : 0 ≤ 2) by lia.
  split; [exact Hlen|]. split; [exact Hext|]. split; [exact H1|]. split; [exact H2|].
  intros Heq.
  apply (GetShortenedPath_decodes "Ab" "Ab" ".png" ".png" 1 2 Hlen Hext Hext H1 H2) in Heq
    as (_ & _ & Hc).
  discriminate Hc.
Defined.
